(** * Auto-tagging of PDF pages: a shallow embedding of [autotag.py]

    The development follows the Python module function by function:
    [detect_tables], [analyze_layout], [extract_text_from_bt_et],
    [find_best_match], [insert_marked_content_by_bbox] and the per-page
    part of [apply_tagging].

    Conventions.
    - A Python [str] is a list of Unicode code points ([N]); [bytes] is a
      list of [Byte.byte].
    - Python exceptions that the code does not catch are values of
      [exn], carried by the [result] monad.  The exceptions that the
      structure-tree loop catches come from pikepdf; whether pikepdf
      makes a structure element is the test [creates], about which
      nothing is assumed.
    - Coordinates, font sizes and similarity scores are Python floats in
      the source.  They are rationals here.  Comparisons of a font size
      with 12 or 14 are exact in both.  A similarity [k / n] computed by
      Python is the correctly rounded quotient, which orders against
      [0.3], [0.8] and other such quotients as the rational does for any
      realistic word count.  The subtractions and additions the layout
      analysis makes on coordinates ([x - 5], [x + 5], the display
      rectangle) round to a double in Python; they are the operations
      [float_sub] and [float_add], about which nothing is assumed.
    - The external libraries (PyMuPDF, pikepdf) appear only through the
      data they hand over: table detections, text blocks, content-stream
      bytes. *)

From Stdlib Require Import List Bool Arith NArith ZArith QArith Lia Lqa DecimalNat.
From Stdlib Require Import Strings.String Strings.Byte.
From Stdlib Require Import Sorting.Sorted Sorting.Permutation.
Import ListNotations.

Local Open Scope nat_scope.

(** ** Strings and bytes *)

Definition char := N.
Definition str := list char.
Definition bytes := list byte.

(** ASCII literals of the source, as code points. *)
Definition lit (s : string) : str := map Byte.to_N (list_byte_of_string s).

Definition char_eqb (a b : char) : bool := N.eqb a b.

Fixpoint str_eqb (a b : str) : bool :=
  match a, b with
  | [], [] => true
  | x :: a', y :: b' => char_eqb x y && str_eqb a' b'
  | _, _ => false
  end.

(** [str.isspace] on one code point, which is also the class [\s] of
    [re] on [str] patterns. *)
Definition isspace (c : char) : bool :=
  (((9 <=? c) && (c <=? 13)) || ((28 <=? c) && (c <=? 32)) ||
   (c =? 133) || (c =? 160) || (c =? 5760) ||
   ((8192 <=? c) && (c <=? 8202)) ||
   (c =? 8232) || (c =? 8233) || (c =? 8239) || (c =? 8287) ||
   (c =? 12288))%N.

Fixpoint lstrip (s : str) : str :=
  match s with
  | c :: s' => if isspace c then lstrip s' else s
  | [] => []
  end.

Definition rstrip (s : str) : str := rev (lstrip (rev s)).

(** [s.strip()] *)
Definition strip (s : str) : str := rstrip (lstrip s).

(** [s.split()]: maximal runs of non-whitespace; [cur] is the word being
    read, most recent character first. *)
Fixpoint split_from (cur : str) (s : str) : list str :=
  match s with
  | [] => match cur with [] => [] | _ => [rev cur] end
  | c :: s' =>
      if isspace c
      then match cur with
           | [] => split_from [] s'
           | _ => rev cur :: split_from [] s'
           end
      else split_from (c :: cur) s'
  end.

Definition split (s : str) : list str := split_from [] s.

(** [sep.join(parts)] *)
Fixpoint join (sep : str) (parts : list str) : str :=
  match parts with
  | [] => []
  | [p] => p
  | p :: ps => p ++ sep ++ join sep ps
  end.

(** [s.startswith(p)] *)
Fixpoint startswith (s p : str) : bool :=
  match p, s with
  | [], _ => true
  | y :: p', x :: s' => char_eqb x y && startswith s' p'
  | _ :: _, [] => false
  end.

(** [p in s] for strings *)
Fixpoint contains (p s : str) : bool :=
  startswith s p ||
  match s with
  | [] => false
  | _ :: s' => contains p s'
  end.

(** [s[a:b]] for [0 <= a], [0 <= b] *)
Definition slice (s : str) (a b : nat) : str := firstn (b - a) (skipn a s).

Definition mem_str (w : str) (ws : list str) : bool := existsb (str_eqb w) ws.

(** [len(set(ws1) & set(ws2))] *)
Fixpoint count_common (seen ws1 ws2 : list str) : nat :=
  match ws1 with
  | [] => 0
  | w :: ws1' =>
      if mem_str w seen then count_common seen ws1' ws2
      else if mem_str w ws2 then S (count_common (w :: seen) ws1' ws2)
      else count_common (w :: seen) ws1' ws2
  end.

Definition set_inter_size (ws1 ws2 : list str) : nat := count_common [] ws1 ws2.

(** [str(n)] for a non-negative integer *)
Fixpoint digits (u : Decimal.uint) : str :=
  match u with
  | Decimal.Nil => []
  | Decimal.D0 u => 48%N :: digits u
  | Decimal.D1 u => 49%N :: digits u
  | Decimal.D2 u => 50%N :: digits u
  | Decimal.D3 u => 51%N :: digits u
  | Decimal.D4 u => 52%N :: digits u
  | Decimal.D5 u => 53%N :: digits u
  | Decimal.D6 u => 54%N :: digits u
  | Decimal.D7 u => 55%N :: digits u
  | Decimal.D8 u => 56%N :: digits u
  | Decimal.D9 u => 57%N :: digits u
  end.

Definition str_of_nat (n : nat) : str := digits (Nat.to_uint n).

(** ** Exceptions *)

Inductive exn := ZeroDivisionError | IndexError | UnicodeEncodeError.

Inductive result (A : Type) :=
| Ok (a : A)
| Raise (e : exn).
Arguments Ok {A} a.
Arguments Raise {A} e.

Definition bind {A B} (r : result A) (k : A -> result B) : result B :=
  match r with
  | Ok a => k a
  | Raise e => Raise e
  end.

Notation "x <- r ;; k" := (bind r (fun x => k))
  (at level 61, r at next level, right associativity).

(** ** The codec

    [bytes.decode('latin-1')] maps every byte to the code point of the
    same value; [str.encode('latin-1')] is defined on code points below
    256 and raises on any other. *)

Definition latin1_decode (b : bytes) : option str := Some (map Byte.to_N b).

Fixpoint latin1_encode (s : str) : result bytes :=
  match s with
  | [] => Ok []
  | c :: s' =>
      match Byte.of_N c with
      | Some b => bs <- latin1_encode s' ;; Ok (b :: bs)
      | None => Raise UnicodeEncodeError
      end
  end.

(** ** Regular expressions

    The four patterns of the module are sequences of literal characters
    and of character classes under [+], [*] or the lazy [*?].  [re]
    explores the alternatives of a quantifier in priority order (longest
    first for a greedy one, shortest first for a lazy one) and takes the
    first that lets the rest of the pattern match; [match_here] does the
    same.  A match is returned as the text of the pattern's capturing
    lazy quantifier and the input left after the match. *)

Inductive atom :=
| Lit (c : char)
| Plus (cls : char -> bool)
| Star (cls : char -> bool)
| LazyStar (cls : char -> bool) (capture : bool).

Definition regex := list atom.

Fixpoint greedy_star (cls : char -> bool) (k : str -> option (str * str))
    (s : str) : option (str * str) :=
  match s with
  | c :: s' =>
      if cls c
      then match greedy_star cls k s' with
           | Some r => Some r
           | None => k s
           end
      else k s
  | [] => k []
  end.

Fixpoint lazy_star (cls : char -> bool) (capture : bool)
    (k : str -> option (str * str)) (s : str) : option (str * str) :=
  match k s with
  | Some (g, rest) => Some (if capture then [] else g, rest)
  | None =>
      match s with
      | c :: s' =>
          if cls c
          then match lazy_star cls capture k s' with
               | Some (g, rest) => Some (if capture then c :: g else g, rest)
               | None => None
               end
          else None
      | [] => None
      end
  end.

Fixpoint match_here (p : regex) : str -> option (str * str) :=
  match p with
  | [] => fun s => Some ([], s)
  | Lit c :: p' =>
      fun s =>
        match s with
        | x :: s' => if char_eqb x c then match_here p' s' else None
        | [] => None
        end
  | Plus cls :: p' =>
      fun s =>
        match s with
        | x :: s' => if cls x then greedy_star cls (match_here p') s' else None
        | [] => None
        end
  | Star cls :: p' => greedy_star cls (match_here p')
  | LazyStar cls capture :: p' => lazy_star cls capture (match_here p')
  end.

(** A match object: [m.start()], [m.end()] and [m.group(1)]. *)
Record rmatch := { m_start : nat; m_end : nat; m_group1 : str }.

(** [m.group(0)], the matched text, is the slice of the subject. *)
Definition group0 (subject : str) (m : rmatch) : str :=
  slice subject (m_start m) (m_end m).

(** [re.finditer]: leftmost matches, each search resuming where the
    previous match ended.  [skip] counts the characters of the last match
    still to be passed over.  Every pattern of the module contains a
    literal, so no match is empty. *)
Fixpoint finditer_from (p : regex) (pos skip : nat) (s : str) : list rmatch :=
  match skip with
  | S k =>
      match s with
      | [] => []
      | _ :: s' => finditer_from p (S pos) k s'
      end
  | O =>
      match match_here p s with
      | Some (g, rest) =>
          let len := List.length s - List.length rest in
          {| m_start := pos; m_end := pos + len; m_group1 := g |} ::
          match s with
          | [] => []
          | _ :: s' => finditer_from p (S pos) (len - 1) s'
          end
      | None =>
          match s with
          | [] => []
          | _ :: s' => finditer_from p (S pos) 0 s'
          end
      end
  end.

Definition finditer (p : regex) (s : str) : list rmatch := finditer_from p 0 0 s.

Definition any_char (c : char) : bool := true.
(** [.] without [re.DOTALL] *)
Definition not_newline (c : char) : bool := negb (c =? 10)%N.

Definition lits (s : string) : regex := map Lit (lit s).

(** [r'(BT\s+.*?ET)'] with [re.DOTALL] *)
Definition bt_et_pattern : regex :=
  lits "BT" ++ [Plus isspace; LazyStar any_char false] ++ lits "ET".

(** [r'\((.*?)\)\s*Tj'] *)
Definition tj_pattern : regex :=
  lits "(" ++ [LazyStar not_newline true] ++ lits ")" ++ [Star isspace] ++ lits "Tj".

(** [r'\[(.*?)\]\s*TJ'] *)
Definition tj_array_pattern : regex :=
  lits "[" ++ [LazyStar not_newline true] ++ lits "]" ++ [Star isspace] ++ lits "TJ".

(** [r'\((.*?)\)'] *)
Definition string_pattern : regex :=
  lits "(" ++ [LazyStar not_newline true] ++ lits ")".

(** ** [extract_text_from_bt_et] *)

Definition extract_text_from_bt_et (bt_et_block : str) : str :=
  let tj_parts := map m_group1 (finditer tj_pattern bt_et_block) in
  let array_parts :=
    flat_map (fun m => map m_group1 (finditer string_pattern (m_group1 m)))
             (finditer tj_array_pattern bt_et_block) in
  let text_parts := tj_parts ++ array_parts in
  let combined_text := strip (join (lit " ") text_parts) in
  combined_text.

(** ** Structure items *)

(** A bounding box [(x0, y0, x1, y1)]. *)
Record box := { x0 : Q; y0 : Q; x1 : Q; y1 : Q }.

(** The values of an item's ["type"]. *)
Inductive tag := Tag_H1 | Tag_H2 | Tag_P | Tag_Table.

Definition tag_eqb (a b : tag) : bool :=
  match a, b with
  | Tag_H1, Tag_H1 | Tag_H2, Tag_H2 | Tag_P, Tag_P | Tag_Table, Tag_Table => true
  | _, _ => false
  end.

Definition tag_name (t : tag) : str :=
  match t with
  | Tag_H1 => lit "H1"
  | Tag_H2 => lit "H2"
  | Tag_P => lit "P"
  | Tag_Table => lit "Table"
  end.

(** A table cell: the keys ["text"] and ["is_header"] (["bbox"] is always
    [None] in the source). *)
Record cell := { cell_text : str; is_header : bool }.

(** A structure item is a Python dict; the keys ["text"] and
    ["table_data"] are present on some items only. *)
Record item := {
  item_page : nat;
  item_type : tag;
  item_text : option str;
  item_table_data : option (list (list cell));
  item_bbox : box;
  item_rect : Q * Q * Q * Q
}.

(** ** [detect_tables] *)

(** What PyMuPDF hands over for one table: its box and the result of
    [table.extract()], [None] when that call raises.  A cell of the
    extracted matrix is a string or [None]. *)
Record table_detection := {
  td_bbox : box;
  td_extract : option (list (list (option str)))
}.

Record table := { table_bbox : box; table_cells : list (list cell) }.

(** The inner loops over one row: a cell is kept when [if cell_text:]
    holds, with its text stripped. *)
Fixpoint row_cells (header : bool) (row : list (option str)) : list cell :=
  match row with
  | [] => []
  | Some (c :: t) :: row' =>
      {| cell_text := strip (c :: t); is_header := header |} :: row_cells header row'
  | _ :: row' => row_cells header row'
  end.

(** The loop over [extracted[1:]]. *)
Fixpoint body_rows (rows : list (list (option str))) : list (list cell) :=
  match rows with
  | [] => []
  | row :: rows' =>
      match row_cells false row with
      | [] => body_rows rows'
      | table_row => table_row :: body_rows rows'
      end
  end.

(** The body of the loop over [tables]; [None] is [continue]. *)
Definition extract_table (t : table_detection) : option table :=
  match td_extract t with
  | None => None
  | Some [] => None
  | Some (row0 :: rows) =>
      let cells :=
        match row_cells true row0 with
        | [] => []
        | header_row => [header_row]
        end ++ body_rows rows in
      if 1 <? List.length cells
      then Some {| table_bbox := td_bbox t; table_cells := cells |}
      else None
  end.

(** [found] is the result of [page.find_tables()], [None] when it
    raises. *)
Definition detect_tables (found : option (list table_detection)) : list table :=
  match found with
  | None => []
  | Some tables =>
      flat_map (fun t => match extract_table t with
                         | Some d => [d]
                         | None => []
                         end) tables
  end.

(** ** [analyze_layout] *)

Record span := { span_text : str; span_size : Q; span_flags : N }.

(** A block of [page.get_text("dict")]; image blocks have no ["lines"]. *)
Record block := { block_lines : option (list (list span)); block_bbox : box }.

Record layout_page := {
  page_height : Q;
  page_tables : option (list table_detection);
  (** [None] when [page.get_text] raises *)
  page_blocks : option (list block)
}.

Definition Qgtb (a b : Q) : bool := negb (Qle_bool a b).
Definition Qgeb (a b : Q) : bool := Qle_bool b a.

(** [max(a, b)] on two arguments: [b] only when it is greater. *)
Definition py_max (a b : Q) : Q := if Qgtb b a then b else a.

Section Layout.

(** Python's [-] and [+] on floats: the exact difference or sum, rounded
    to a double.  The analysis is read over any such pair of
    operations. *)
Variable float_sub : Q -> Q -> Q.
Variable float_add : Q -> Q -> Q.

Definition inside_table (block_bbox table_bbox : box) : bool :=
  Qgeb (x0 block_bbox) (float_sub (x0 table_bbox) 5) &&
  Qgeb (y0 block_bbox) (float_sub (y0 table_bbox) 5) &&
  Qle_bool (x1 block_bbox) (float_add (x1 table_bbox) 5) &&
  Qle_bool (y1 block_bbox) (float_add (y1 table_bbox) 5).

Definition is_in_table (block_bbox : box) (table_bboxes : list box) : bool :=
  existsb (inside_table block_bbox) table_bboxes.

(** The state of the styling loop: [block_text], [max_font_size],
    [is_bold]. *)
Definition styling := (str * Q * bool)%type.

Definition add_span (st : styling) (sp : span) : styling :=
  let '(block_text, max_font_size, is_bold) := st in
  (block_text ++ span_text sp ++ lit " ",
   py_max max_font_size (span_size sp),
   if (N.land (span_flags sp) 2 =? 0)%N then is_bold else true).

Definition block_styling (lines : list (list span)) : styling :=
  fold_left (fun st line => fold_left add_span line st) lines ([], 0%Q, false).

Definition tag_of_styling (max_font_size : Q) (is_bold : bool) : tag :=
  if Qgtb max_font_size 14 then Tag_H1
  else if Qgtb max_font_size 12 || is_bold then Tag_H2
  else Tag_P.

Definition display_rect (height : Q) (b : box) : Q * Q * Q * Q :=
  (x0 b, float_sub height (y1 b), float_sub (x1 b) (x0 b), float_sub (y1 b) (y0 b)).

(** The body of the loop over [blocks]: the item of a block with its
    sort key [y_pos], or [None] where the source says [continue]. *)
Definition analyze_block (page_num : nat) (height : Q) (table_bboxes : list box)
    (b : block) : option (Q * item) :=
  match block_lines b with
  | None => None
  | Some lines =>
      if is_in_table (block_bbox b) table_bboxes then None
      else
        let '(block_text, max_font_size, is_bold) := block_styling lines in
        let block_text := strip block_text in
        match block_text with
        | [] => None
        | _ =>
            let tag_type := tag_of_styling max_font_size is_bold in
            let rect := block_bbox b in
            Some (y0 rect,
                  {| item_page := page_num + 1;
                     item_type := tag_type;
                     item_text := Some block_text;
                     item_table_data := None;
                     item_rect := display_rect height rect;
                     item_bbox := rect |})
        end
  end.

Definition table_item (page_num : nat) (height : Q) (t : table) : Q * item :=
  (y0 (table_bbox t),
   {| item_page := page_num + 1;
      item_type := Tag_Table;
      item_text := None;
      item_table_data := Some (table_cells t);
      item_bbox := table_bbox t;
      item_rect := display_rect height (table_bbox t) |}).

(** [list.sort(key=...)] is stable: an element goes after the elements
    already placed whose key is not greater. *)
Fixpoint insert_by_key (x : Q * item) (l : list (Q * item)) : list (Q * item) :=
  match l with
  | [] => [x]
  | y :: l' => if Qgtb (fst y) (fst x) then x :: l else y :: insert_by_key x l'
  end.

Definition sort_by_key (l : list (Q * item)) : list (Q * item) :=
  fold_left (fun acc x => insert_by_key x acc) l [].

Fixpoint filter_map {A B} (f : A -> option B) (l : list A) : list B :=
  match l with
  | [] => []
  | a :: l' => match f a with
               | Some b => b :: filter_map f l'
               | None => filter_map f l'
               end
  end.

(** One iteration of the loop over pages. *)
Definition analyze_page (page_num : nat) (pg : layout_page) : list item :=
  let height := page_height pg in
  let tables := detect_tables (page_tables pg) in
  let table_bboxes := map table_bbox tables in
  let table_items := map (table_item page_num height) tables in
  match page_blocks pg with
  | None => []
  | Some blocks =>
      let page_items :=
        table_items ++ filter_map (analyze_block page_num height table_bboxes) blocks in
      map snd (sort_by_key page_items)
  end.

Fixpoint analyze_pages (page_num : nat) (doc : list layout_page) : list item :=
  match doc with
  | [] => []
  | pg :: doc' => analyze_page page_num pg ++ analyze_pages (S page_num) doc'
  end.

Definition analyze_layout (doc : list layout_page) : list item := analyze_pages 0 doc.

(** [page_items] as it stands before [page_items.sort]: the table items,
    then the items of the retained blocks, each with its [y_pos]. *)
Definition discovered (page_num : nat) (pg : layout_page) : list (Q * item) :=
  match page_blocks pg with
  | None => []
  | Some blocks =>
      let tables := detect_tables (page_tables pg) in
      map (table_item page_num (page_height pg)) tables ++
      filter_map (analyze_block page_num (page_height pg) (map table_bbox tables)) blocks
  end.

End Layout.

(** [a / b] on two non-negative integers *)
Definition true_div (a b : nat) : result Q :=
  match b with
  | O => Raise ZeroDivisionError
  | S _ => Ok (Z.of_nat a # Pos.of_nat b)
  end.

(** [item.get("text", "")] *)
Definition get_text (it : item) : str :=
  match item_text it with
  | Some t => t
  | None => []
  end.

(** [item.get("table_data", [])] *)
Definition get_table_data (it : item) : list (list cell) :=
  match item_table_data it with
  | Some d => d
  | None => []
  end.

(** How one iteration of the matching loop ends: it falls through to the
    next item with the running best, or the function returns. *)
Inductive flow :=
| Continue (best_match_idx : option nat) (best_similarity : Q)
| Return (idx : nat).

Section Matching.

(** [str.lower].  Python's Unicode case tables are not part of the
    module, so the matcher is read over any lower-casing function; the
    statements below name the properties of [str.lower] they rely on. *)
Variable lower : str -> str.

(** ** [find_best_match] *)

(** The body of [for idx, item in enumerate(items_for_page)]. *)
Definition match_step (text_block_text : str) (used_indices : list nat)
    (idx : nat) (it : item) (best_match_idx : option nat) (best_similarity : Q)
    : result flow :=
  if existsb (Nat.eqb idx) used_indices then Ok (Continue best_match_idx best_similarity)
  else if tag_eqb (item_type it) Tag_Table then Ok (Continue best_match_idx best_similarity)
  else
    match strip (get_text it) with
    | [] => Ok (Continue best_match_idx best_similarity)
    | item_text =>
        let text_lower := lower text_block_text in
        let item_lower := lower item_text in
        if str_eqb text_lower item_lower then Ok (Return idx)
        else
          best <-
            (if contains item_lower text_lower || contains text_lower item_lower
             then
               similarity <-
                 true_div (set_inter_size (split text_lower) (split item_lower))
                          (Nat.max (List.length (split text_lower))
                                   (List.length (split item_lower))) ;;
               Ok (if Qgtb similarity best_similarity
                   then (Some idx, similarity)
                   else (best_match_idx, best_similarity))
             else Ok (best_match_idx, best_similarity)) ;;
          let '(best_match_idx, best_similarity) := best in
          if startswith text_lower
               (firstn (Nat.min 20 (List.length item_lower)) item_lower)
          then
            let similarity := 0.8%Q in
            Ok (if Qgtb similarity best_similarity
                then Continue (Some idx) similarity
                else Continue best_match_idx best_similarity)
          else Ok (Continue best_match_idx best_similarity)
    end.

Fixpoint match_loop (text_block_text : str) (used_indices : list nat)
    (idx : nat) (items : list item) (best_match_idx : option nat)
    (best_similarity : Q) : result (option nat) :=
  match items with
  | [] => Ok (if Qgtb best_similarity 0.3 then best_match_idx else None)
  | it :: items' =>
      f <- match_step text_block_text used_indices idx it best_match_idx best_similarity ;;
      match f with
      | Return i => Ok (Some i)
      | Continue b s => match_loop text_block_text used_indices (S idx) items' b s
      end
  end.

Definition find_best_match (text_block_text : str) (items_for_page : list item)
    (used_indices : list nat) : result (option nat) :=
  match text_block_text with
  | [] => Ok None
  | _ => match_loop text_block_text used_indices 0 items_for_page None 0%Q
  end.

(** ** [insert_marked_content_by_bbox] *)

(** The first loop: each BT...ET block, in order, with the index of the
    item matched to it. *)
Fixpoint match_blocks (content_str : str) (matches : list rmatch)
    (items_for_page : list item) (used_indices : list nat)
    : result (list (rmatch * option nat)) :=
  match matches with
  | [] => Ok []
  | m :: matches' =>
      let bt_et_text := extract_text_from_bt_et (group0 content_str m) in
      matched_idx <- find_best_match bt_et_text items_for_page used_indices ;;
      match matched_idx with
      | Some i =>
          rest <- match_blocks content_str matches' items_for_page (i :: used_indices) ;;
          Ok ((m, Some i) :: rest)
      | None =>
          rest <- match_blocks content_str matches' items_for_page used_indices ;;
          Ok ((m, None) :: rest)
      end
  end.

(** [f"/{tag_type} <</MCID {mcid}>> BDC\n"] *)
Definition bdc (tag_type : tag) (mcid : nat) : str :=
  lit "/" ++ tag_name tag_type ++ lit " <</MCID " ++ str_of_nat mcid ++ lit ">> BDC" ++ [10%N].

(** ["\nEMC"] *)
Definition emc : str := 10%N :: lit "EMC".

(** The second loop and the remainder: the parts of the new content. *)
Fixpoint content_parts (content_str : str) (items_for_page : list item)
    (text_block_matches : list (rmatch * option nat)) (last_end : nat)
    : result (list str) :=
  match text_block_matches with
  | [] => Ok [skipn last_end content_str]
  | (m, item_idx) :: rest =>
      let before := slice content_str last_end (m_start m) in
      match item_idx with
      | Some i =>
          match nth_error items_for_page i with
          | None => Raise IndexError
          | Some it =>
              let tag_type := item_type it in
              let mcid := i in
              parts <- content_parts content_str items_for_page rest (m_end m) ;;
              Ok (before :: bdc tag_type mcid :: group0 content_str m :: emc :: parts)
          end
      | None =>
          parts <- content_parts content_str items_for_page rest (m_end m) ;;
          Ok (before :: group0 content_str m :: parts)
      end
  end.

(** The function, over the decoding step [decode]: the source calls
    [content_bytes.decode('latin-1')] under [try], and returns
    [content_bytes] from the [except] branch. *)
Definition insert_marked_content_with (decode : bytes -> option str)
    (content_bytes : bytes) (items_for_page : list item) : result bytes :=
  match decode content_bytes with
  | None => Ok content_bytes
  | Some content_str =>
      match finditer bt_et_pattern content_str with
      | [] => Ok content_bytes
      | matches =>
          text_block_matches <- match_blocks content_str matches items_for_page [] ;;
          new_content_parts <- content_parts content_str items_for_page text_block_matches 0 ;;
          let new_content := List.concat new_content_parts in
          latin1_encode new_content
      end
  end.

Definition insert_marked_content_by_bbox : bytes -> list item -> result bytes :=
  insert_marked_content_with latin1_decode.

(** The [mcid] of every block the first loop matched, in stream
    order. *)
Definition wrapped_mcids (text_block_matches : list (rmatch * option nat)) : list nat :=
  filter_map snd text_block_matches.

End Matching.

(** ** [apply_tagging]: the structure tree *)

(** The ["S"] entry of a structure element. *)
Inductive role := Sect | Tagged (t : tag) | TR | TH | TD.

#[local] Set Warnings "-register-all".

(** A structure element.  Its ["K"] entry is an array of child elements
    ([Node]) or one marked-content identifier ([Leaf], which also carries
    the page reference ["Pg"], here the page index). *)
Inductive StructElem :=
| Node (s : role) (title : option str) (kids : list StructElem)
| Leaf (s : role) (title : str) (mcid : nat) (pg : nat).

Section Building.

(** [pdf.make_indirect(Dictionary(...))] for a structure element: whether
    the call returns, given the element as it is first made (a [Node] is
    made with an empty ["K"] array and filled afterwards); when it does
    not return, it raises, and the source catches the exception.  Which
    elements pikepdf refuses is not part of the module, so the loops are
    read over any such test. *)
Variable creates : StructElem -> bool.

(** The loop over the cells of a row, threading [mcid_counter]: the
    cells appended to the row, the counter, and whether the loop ran to
    its end ([false] when a call raised). *)
Fixpoint build_cells (page_idx : nat) (row : list cell) (mcid_counter : nat)
    : list StructElem * nat * bool :=
  match row with
  | [] => ([], mcid_counter, true)
  | c :: row' =>
      let cell_tag := if is_header c then TH else TD in
      let cell_elem := Leaf cell_tag (firstn 100 (cell_text c)) mcid_counter page_idx in
      if creates cell_elem then
        let '(elems, n, finished) := build_cells page_idx row' (mcid_counter + 1) in
        (cell_elem :: elems, n, finished)
      else ([], mcid_counter, false)
  end.

(** The loop over the rows of a table.  A row element is appended to
    the table before its cells are made, so a row interrupted by an
    exception stays in the table with the cells made so far. *)
Fixpoint build_rows (page_idx : nat) (table_data : list (list cell))
    (mcid_counter : nat) : list StructElem * nat * bool :=
  match table_data with
  | [] => ([], mcid_counter, true)
  | row :: rows =>
      if creates (Node TR None []) then
        let '(cells, n, finished) := build_cells page_idx row mcid_counter in
        let tr_elem := Node TR None cells in
        if finished then
          let '(trs, n', finished') := build_rows page_idx rows n in
          (tr_elem :: trs, n', finished')
        else ([tr_elem], n, false)
      else ([], mcid_counter, false)
  end.

(** The loop over the items of a page, with its two [try] blocks: an
    exception while a table is built ends the work on that table, which
    stays in the section with what was appended to it; an exception
    while the element of a text item is made leaves the item without
    element and [mcid_counter] as it was. *)
Fixpoint build_elements (page_idx : nat) (items_for_page : list item)
    (mcid_counter : nat) : list StructElem * nat :=
  match items_for_page with
  | [] => ([], mcid_counter)
  | it :: items' =>
      match item_type it with
      | Tag_Table =>
          if creates (Node (Tagged Tag_Table) None []) then
            let '(trs, n, _) := build_rows page_idx (get_table_data it) mcid_counter in
            let table_elem := Node (Tagged Tag_Table) None trs in
            let '(elems, n') := build_elements page_idx items' n in
            (table_elem :: elems, n')
          else build_elements page_idx items' mcid_counter
      | tag_type =>
          let elem := Leaf (Tagged tag_type) (firstn 100 (get_text it)) mcid_counter page_idx in
          if creates elem then
            let '(elems, n') := build_elements page_idx items' (mcid_counter + 1) in
            (elem :: elems, n')
          else build_elements page_idx items' mcid_counter
      end
  end.

End Building.

(** The MCIDs a structure element refers to, in tree order. *)
Fixpoint referenced_mcids (e : StructElem) : list nat :=
  match e with
  | Leaf _ _ k _ => [k]
  | Node _ _ kids => flat_map referenced_mcids kids
  end.

(** A page's [/Contents]: one stream or an array of streams. *)
Inductive contents := Single (stream : bytes) | Array (streams : list bytes).

Record pdf_page := {
  Contents : option contents;
  StructParents : option nat
}.

Definition read_contents (c : contents) : bytes :=
  match c with
  | Single stream => stream
  | Array streams => List.concat streams
  end.

Section Tagging.

Variable lower : str -> str.
Variable decode : bytes -> option str.
Variable creates : StructElem -> bool.

(** The body of the loop over pages for a page that has items: the page
    with its new content stream, and the page's section element.  The
    calls into pikepdf that the source does not guard (the section
    element, the new stream) are taken to return. *)
Definition tag_page (page_idx : nat) (page : pdf_page) (items_for_page : list item)
    : result (pdf_page * option StructElem) :=
  match Contents page with
  | None => Ok ({| Contents := None; StructParents := Some page_idx |}, None)
  | Some c =>
      let original_content := read_contents c in
      new_content <-
        insert_marked_content_with lower decode original_content items_for_page ;;
      let sect :=
        Node Sect (Some (lit "Page-" ++ str_of_nat (page_idx + 1)))
             (fst (build_elements creates page_idx items_for_page 0)) in
      Ok ({| Contents := Some (Single new_content); StructParents := Some page_idx |},
          Some sect)
  end.

(** [page_items[page_idx]]: the items whose ["page"] is [page_idx + 1]. *)
Definition items_of_page (items : list item) (page_idx : nat) : list item :=
  filter (fun it => item_page it =? page_idx + 1) items.

Fixpoint tag_pages (page_idx : nat) (pages : list pdf_page) (items : list item)
    : result (list pdf_page * list StructElem) :=
  match pages with
  | [] => Ok ([], [])
  | page :: pages' =>
      match items_of_page items page_idx with
      | [] =>
          r <- tag_pages (S page_idx) pages' items ;;
          Ok (page :: fst r, snd r)
      | items_for_page =>
          p <- tag_page page_idx page items_for_page ;;
          r <- tag_pages (S page_idx) pages' items ;;
          Ok (fst p :: fst r,
              match snd p with
              | Some sect => sect :: snd r
              | None => snd r
              end)
      end
  end.

(** The document after tagging: its pages and the sections appended to
    the ["K"] array of the structure-tree root. *)
Definition apply_tagging (pages : list pdf_page) (items : list item)
    : result (list pdf_page * list StructElem) :=
  tag_pages 0 pages items.

End Tagging.

(** ** A lower-casing function for examples

    [str.lower] on the Latin-1 range, where it shifts [A]-[Z] and the
    accented capitals by 32; other code points are returned as they
    are. *)
Definition latin1_lower_char (c : char) : char :=
  (if ((65 <=? c) && (c <=? 90)) || ((192 <=? c) && (c <=? 222) && negb (c =? 215))
   then c + 32 else c)%N.

Definition latin1_lower (s : str) : str := map latin1_lower_char s.

Definition text_item (page : nat) (t : tag) (s : string) : item :=
  {| item_page := page; item_type := t; item_text := Some (lit s);
     item_table_data := None;
     item_bbox := {| x0 := 0; y0 := 0; x1 := 0; y1 := 0 |};
     item_rect := (0, 0, 0, 0)%Q |}.

Definition bytes_of (s : string) : bytes := list_byte_of_string s.

Definition origin : box := {| x0 := 0; y0 := 0; x1 := 0; y1 := 0 |}.

(** A detection whose first row has no text and whose next two rows have
    some. *)
Definition headerless_detection : table_detection :=
  {| td_bbox := origin;
     td_extract := Some [[None; None]; [Some (lit "a"); None]; [Some (lit "b"); None]] |}.

(** The spans of a block, in reading order, and the test
    [span["flags"] & 2] of the styling loop. *)
Definition spans_of (lines : list (list span)) : list span := List.concat lines.

Definition tested_flag (sp : span) : bool := negb (N.land (span_flags sp) 2 =? 0)%N.

(** What PyMuPDF puts into a span's ["flags"]: bit 1 (value 2) says
    italic, bit 4 (value 16) says bold. *)
Definition span_italic (sp : span) : bool := N.testbit (span_flags sp) 1.

Definition span_bold (sp : span) : bool := N.testbit (span_flags sp) 4.

(** The coordinates of the sample blocks and tables are small integers,
    on which Python's float subtraction and addition are exact: on them
    [float_sub] and [float_add] are [Qminus] and [Qplus]. *)
Definition sample_block (size : Q) (flags : N) : block :=
  {| block_lines := Some [[ {| span_text := lit "Invoice Total: $500";
                               span_size := size; span_flags := flags |} ]];
     block_bbox := {| x0 := 72; y0 := 100; x1 := 300; y1 := 120 |} |}.

(** ** The scoring rules

    The rules are written here without the helpers of the matcher: a
    word set is the list of the distinct words ([nodup]), and the
    intersection of two word sets is counted word by word. *)

Definition str_dec : forall a b : str, {a = b} + {a <> b} := list_eq_dec N.eq_dec.

(** The word set of a string's tokens: each distinct token once. *)
Definition word_set (ws : list str) : list str := nodup str_dec ws.

Definition in_words (w : str) (ws : list str) : bool :=
  if in_dec str_dec w ws then true else false.

(** The size of the intersection of two word sets. *)
Definition common_words (ws1 ws2 : list str) : nat :=
  List.length (filter (fun w => in_words w ws2) (word_set ws1)).

(** Some character of [s] is not whitespace. *)
Definition has_word (s : str) : bool := existsb (fun c => negb (isspace c)) s.

(** A candidate replaces the running best only with a strictly higher
    score. *)
Definition update_best (idx : nat) (best : option nat * Q) (similarity : Q)
    : option nat * Q :=
  if Qgtb similarity (snd best) then (Some idx, similarity) else best.

Section Scores.

Variable lower : str -> str.

(** An item the matcher considers for a run: not yet used, not a table,
    with non-empty trimmed text. *)
Definition eligible (used_indices : list nat) (idx : nat) (it : item) : bool :=
  negb (existsb (Nat.eqb idx) used_indices) &&
  negb (tag_eqb (item_type it) Tag_Table) &&
  match strip (get_text it) with [] => false | _ => true end.

(** Rule 1: case-insensitive equality of run text and item text. *)
Definition exact_match (text : str) (it : item) : bool :=
  str_eqb (lower text) (lower (strip (get_text it))).

(** Rule 2 applies when one lower-cased string contains the other. *)
Definition containment (text_lower item_lower : str) : bool :=
  contains item_lower text_lower || contains text_lower item_lower.

(** Rule 2 as the specification words it: the size of the word-set
    intersection over the size of the larger word set. *)
Definition word_set_ratio (text_lower item_lower : str) : Q :=
  Z.of_nat (common_words (split text_lower) (split item_lower))
  # Pos.of_nat (Nat.max (List.length (word_set (split text_lower)))
                        (List.length (word_set (split item_lower)))).

(** The ratio with the denominator of line 219: the size of the
    word-set intersection over the larger number of words, a word
    counted as often as it occurs. *)
Definition word_count_ratio (text_lower item_lower : str) : Q :=
  Z.of_nat (common_words (split text_lower) (split item_lower))
  # Pos.of_nat (Nat.max (List.length (split text_lower))
                        (List.length (split item_lower))).

(** Rule 3: the run starts with the first 20 characters of the item. *)
Definition prefix_rule (text_lower item_lower : str) : bool :=
  startswith text_lower (firstn (Nat.min 20 (List.length item_lower)) item_lower).

Definition prefix_score (text_lower item_lower : str) : Q :=
  if prefix_rule text_lower item_lower then 0.8%Q else 0%Q.

(** The score of an item for a run under rules 2 and 3 of the
    specification: the higher of the word-set ratio and the prefix
    score. *)
Definition rule_score (text : str) (it : item) : Q :=
  py_max (if containment (lower text) (lower (strip (get_text it)))
          then word_set_ratio (lower text) (lower (strip (get_text it)))
          else 0%Q)
         (prefix_score (lower text) (lower (strip (get_text it)))).

(** The same with the word-count ratio in the place of the word-set
    ratio. *)
Definition containment_score (text_lower item_lower : str) : Q :=
  if containment text_lower item_lower then word_count_ratio text_lower item_lower else 0%Q.

Definition item_score (text : str) (it : item) : Q :=
  py_max (containment_score (lower text) (lower (strip (get_text it))))
         (prefix_score (lower text) (lower (strip (get_text it)))).

End Scores.

(** ** Reading the rewriter's result *)

(** A stretch of a content stream: the bytes before a text run, the run,
    and the marked-content operator pair put around the run, if any. *)
Record segment := {
  seg_before : str;
  seg_run : str;
  seg_mark : option (tag * nat)
}.

Definition wrap (mark : option (tag * nat)) (run : str) : str :=
  match mark with
  | Some (tag_type, mcid) => bdc tag_type mcid ++ run ++ emc
  | None => run
  end.

(** The stream the segments were cut from, and the stream with the
    operators inserted; [tail] is what follows the last run. *)
Definition original (segs : list segment) (tail : str) : str :=
  List.concat (map (fun sg => seg_before sg ++ seg_run sg) segs) ++ tail.

Definition rewritten (segs : list segment) (tail : str) : str :=
  List.concat (map (fun sg => seg_before sg ++ wrap (seg_mark sg) (seg_run sg)) segs) ++ tail.

(** *** Reading a begin operator back *)

(** [s] without the prefix [p], when it starts with it. *)
Fixpoint strip_prefix (p s : str) : option str :=
  match p, s with
  | [], _ => Some s
  | x :: p', y :: s' => if char_eqb y x then strip_prefix p' s' else None
  | _ :: _, [] => None
  end.

(** The decimal digits at the start of [s], and what follows them. *)
Fixpoint read_digits (s : str) : Decimal.uint * str :=
  match s with
  | [] => (Decimal.Nil, [])
  | c :: s' =>
      let '(u, rest) := read_digits s' in
      if (c =? 48)%N then (Decimal.D0 u, rest)
      else if (c =? 49)%N then (Decimal.D1 u, rest)
      else if (c =? 50)%N then (Decimal.D2 u, rest)
      else if (c =? 51)%N then (Decimal.D3 u, rest)
      else if (c =? 52)%N then (Decimal.D4 u, rest)
      else if (c =? 53)%N then (Decimal.D5 u, rest)
      else if (c =? 54)%N then (Decimal.D6 u, rest)
      else if (c =? 55)%N then (Decimal.D7 u, rest)
      else if (c =? 56)%N then (Decimal.D8 u, rest)
      else if (c =? 57)%N then (Decimal.D9 u, rest)
      else (Decimal.Nil, s)
  end.

(** A tag name followed by a space. *)
Definition read_tag (s : str) : option (tag * str) :=
  match strip_prefix (lit "H1 ") s with
  | Some rest => Some (Tag_H1, rest)
  | None =>
  match strip_prefix (lit "H2 ") s with
  | Some rest => Some (Tag_H2, rest)
  | None =>
  match strip_prefix (lit "P ") s with
  | Some rest => Some (Tag_P, rest)
  | None =>
  match strip_prefix (lit "Table ") s with
  | Some rest => Some (Tag_Table, rest)
  | None => None
  end end end end.

(** The tag and the MCID of an operator [/tag <</MCID n>> BDC] followed
    by a newline; [None] for any other text. *)
Definition read_bdc (s : str) : option (tag * nat) :=
  match strip_prefix (lit "/") s with
  | None => None
  | Some s1 =>
      match read_tag s1 with
      | None => None
      | Some (tag_type, s2) =>
          match strip_prefix (lit "<</MCID ") s2 with
          | None => None
          | Some s3 =>
              let '(u, s4) := read_digits s3 in
              if str_eqb s4 (lit ">> BDC" ++ [10%N])
              then Some (tag_type, Nat.of_uint u)
              else None
          end
      end
  end.

(** What the rewritten stream holds between the bytes before a run and
    the run: the begin operator of a marked run, nothing otherwise (see
    [wrap]). *)
Definition begin_operator (sg : segment) : str :=
  match seg_mark sg with
  | Some (tag_type, mcid) => bdc tag_type mcid
  | None => []
  end.

(** Likewise between the run and the bytes after it. *)
Definition end_operator (sg : segment) : str :=
  match seg_mark sg with
  | Some _ => emc
  | None => []
  end.

(** The marked-content ranges of a rewritten stream, read off the begin
    operators in it: their tags and MCIDs, in stream order. *)
Definition stream_marks (segs : list segment) : list (tag * nat) :=
  filter_map (fun sg => read_bdc (begin_operator sg)) segs.

Definition stream_mcids (segs : list segment) : list nat := map snd (stream_marks segs).

(** A begin-text/end-text region: [BT], a whitespace character, any
    characters, [ET]. *)
Definition has_bt_et (s : str) : Prop :=
  exists a w b c, isspace w = true /\ s = a ++ lit "BT" ++ w :: b ++ lit "ET" ++ c.

(** The same, by scanning. *)
Fixpoint scan_bt_et (s : str) : bool :=
  (startswith s (lit "BT") &&
   match skipn 2 s with
   | w :: t => isspace w && contains (lit "ET") t
   | [] => false
   end) ||
  match s with
  | [] => false
  | _ :: s' => scan_bt_et s'
  end.

(** Matches in stream order: each starts at or after [lo], where the
    previous one ended, and ends at or before [hi]. *)
Fixpoint ordered (lo hi : nat) (ms : list rmatch) : Prop :=
  match ms with
  | [] => True
  | m :: ms' => lo <= m_start m /\ m_start m <= m_end m /\ m_end m <= hi /\
                ordered (m_end m) hi ms'
  end.

(** The code points [str.encode('latin-1')] accepts. *)
Definition latin1_char (c : char) : Prop := (c < 256)%N.

(** A mark names the tag of the item it points to. *)
Definition mark_ok (items : list item) (sg : segment) : Prop :=
  match seg_mark sg with
  | Some (tag_type, mcid) =>
      exists it, nth_error items mcid = Some it /\ item_type it = tag_type
  | None => True
  end.

(** ** Counting the identifiers of a page *)




Definition table_item_of (page : nat) (rows : list (list str)) : item :=
  {| item_page := page; item_type := Tag_Table; item_text := None;
     item_table_data :=
       Some (map (map (fun s => {| cell_text := s; is_header := false |})) rows);
     item_bbox := origin; item_rect := (0, 0, 0, 0)%Q |}.

Definition page_of (s : string) : pdf_page :=
  {| Contents := Some (Single (bytes_of s)); StructParents := None |}.


(** ** The layout analysis, read as a whole *)

(** The order [list.sort(key=...)] sorts into. *)
Definition key_le (a b : Q * item) : Prop := (fst a <= fst b)%Q.

(** The top edge an item is sorted by. *)
Definition top_edge (it : item) : Q := y0 (item_bbox it).

Definition top_edge_le (a b : item) : Prop := (top_edge a <= top_edge b)%Q.

Definition at_top_edge (k : Q) (it : item) : bool := Qeq_bool (top_edge it) k.

(** What the analysis guarantees about an item it returns. *)
Definition well_formed_item (it : item) : Prop :=
  match item_type it with
  | Tag_Table =>
      item_text it = None /\
      exists rows, item_table_data it = Some rows /\
                   2 <= List.length rows /\ Forall (fun r => r <> []) rows
  | _ =>
      item_table_data it = None /\
      exists t, item_text it = Some t /\ t <> [] /\ strip t = t
  end.

Definition sample_table_detection : table_detection :=
  {| td_bbox := {| x0 := 72; y0 := 50; x1 := 300; y1 := 90 |};
     td_extract := Some [[Some (lit "Name"); Some (lit "Age")];
                         [Some (lit "Ann"); Some (lit "30")]] |}.

(** A page with a table at the top and two text blocks, the first of
    them lower on the page than the second. *)
Definition sample_layout_page : layout_page :=
  {| page_height := 792;
     page_tables := Some [sample_table_detection];
     page_blocks :=
       Some [ {| block_lines := Some [[ {| span_text := lit "Body text";
                                           span_size := 11; span_flags := 0 |} ]];
                 block_bbox := {| x0 := 72; y0 := 200; x1 := 300; y1 := 220 |} |};
              sample_block 16 0 ] |}.

Definition sample_item : item := text_item 1 Tag_P "Hello".

(** ** The table extractor, read as a whole *)

(** The test [if cell_text:] on an extracted cell: a non-empty string. *)
Definition cell_kept (c : option str) : bool :=
  match c with
  | Some (_ :: _) => true
  | _ => false
  end.

(** The stripped texts of the cells of a row that pass the test. *)
Definition kept_texts (row : list (option str)) : list str :=
  map (fun c => match c with Some s => strip s | None => [] end) (filter cell_kept row).

(** The rows of a detection that keep a cell. *)
Definition kept_rows (rows : list (list (option str))) : list (list (option str)) :=
  filter (existsb cell_kept) rows.

(** A text run as the rewriter cuts it out: [BT], a whitespace
    character, any characters, and the first [ET] after them: no [ET]
    begins between the whitespace character and the final [ET]. *)
Definition bt_et_block (run : str) : Prop :=
  exists w b,
    isspace w = true /\ run = lit "BT" ++ w :: b ++ lit "ET" /\
    contains (lit "ET") (b ++ lit "E") = false.

(** The tag written into a segment's begin operator is not [Table]. *)
Definition mark_not_table (sg : segment) : Prop :=
  match seg_mark sg with
  | Some (tag_type, _) => tag_type <> Tag_Table
  | None => True
  end.

(** An item the matcher never considers: a table, or an item whose text
    is blank. *)
Definition never_eligible (it : item) : Prop :=
  item_type it = Tag_Table \/ strip (get_text it) = [].

(** ** The structure tree, element by element *)


(** The element of one cell, given its identifier. *)
Definition cell_elem (page_idx : nat) (c : cell) (mcid : nat) : StructElem :=
  Leaf (if is_header c then TH else TD) (firstn 100 (cell_text c)) mcid page_idx.



(** Two tests for examples: pikepdf makes every element; pikepdf refuses
    a title that holds a surrogate code point (a Python string with a
    lone surrogate cannot be encoded for the PDF). *)
Definition always_created (e : StructElem) : bool := true.

Definition is_surrogate (c : char) : bool := ((55296 <=? c) && (c <=? 57343))%N.

Definition encodable_title (e : StructElem) : bool :=
  match e with
  | Leaf _ title _ _ => negb (existsb is_surrogate title)
  | Node _ (Some title) _ => negb (existsb is_surrogate title)
  | Node _ None _ => true
  end.

(** A text item whose text is one lone surrogate, U+D800. *)
Definition surrogate_item (page : nat) : item :=
  {| item_page := page; item_type := Tag_P; item_text := Some [55296%N];
     item_table_data := None; item_bbox := origin; item_rect := (0, 0, 0, 0)%Q |}.

(** The value of a result that is known not to be an exception. *)
Definition value_of {A} (default : A) (r : result A) : A :=
  match r with
  | Ok a => a
  | Raise _ => default
  end.

Definition sample_pages : list pdf_page :=
  [ page_of "BT (Hello) Tj ET";
    page_of "BT (Skipped) Tj ET";
    {| Contents := None; StructParents := None |} ].

Definition sample_page_items : list item :=
  [ text_item 1 Tag_P "Hello"; text_item 3 Tag_P "No stream"; text_item 7 Tag_P "Far" ].

(** * Properties *)

(** ** The model on small inputs *)

Example extract_tj :
  extract_text_from_bt_et (lit "BT /F1 12 Tf (Hello World) Tj ET") = lit "Hello World".
Proof. vm_compute. reflexivity. Qed.

Example extract_tj_array :
  extract_text_from_bt_et (lit "BT [(Hel) -20 (lo)] TJ (x) Tj ET")
  = lit "Hel) -20 (lo)] TJ (x Hel lo".
Proof. vm_compute. reflexivity. Qed.

Example finditer_bt_et :
  map (fun m => (m_start m, m_end m)) (finditer bt_et_pattern (lit "q BT (a) Tj ET Q BT ET BTET"))
  = [(2, 14); (17, 22)].
Proof. vm_compute. reflexivity. Qed.

Example rewrite_one_block :
  insert_marked_content_by_bbox latin1_lower
    (bytes_of "q BT (Invoice Total: $500) Tj ET Q")
    [text_item 1 Tag_H1 "Invoice Total: $500"]
  = Ok (bytes_of "q /H1 <</MCID 0>> BDC
BT (Invoice Total: $500) Tj ET
EMC Q").
Proof. vm_compute. reflexivity. Qed.

(** ** Comparisons on rationals *)

Lemma Qgtb_true (a b : Q) : Qgtb a b = true <-> (b < a)%Q.
Proof.
  unfold Qgtb. rewrite negb_true_iff. split.
  - intros H. apply Qnot_le_lt. intros Hle.
    apply Qle_bool_iff in Hle. congruence.
  - intros H. destruct (Qle_bool a b) eqn:E; [|reflexivity].
    apply Qle_bool_iff in E. exfalso. exact (Qlt_not_le _ _ H E).
Qed.

Lemma Qgtb_false (a b : Q) : Qgtb a b = false <-> (a <= b)%Q.
Proof.
  unfold Qgtb. rewrite negb_false_iff. apply Qle_bool_iff.
Qed.

Lemma py_max_l (a b : Q) : (a <= py_max a b)%Q.
Proof.
  unfold py_max. destruct (Qgtb b a) eqn:E.
  - apply Qgtb_true in E. apply Qlt_le_weak, E.
  - apply Qle_refl.
Qed.

Lemma py_max_r (a b : Q) : (b <= py_max a b)%Q.
Proof.
  unfold py_max. destruct (Qgtb b a) eqn:E.
  - apply Qle_refl.
  - apply Qgtb_false in E. exact E.
Qed.

Lemma py_max_cases (a b : Q) : py_max a b = a \/ py_max a b = b.
Proof. unfold py_max. destruct (Qgtb b a); auto. Qed.

(** ** The table extractor *)

Lemma body_rows_nonempty rows : Forall (fun r => r <> []) (body_rows rows).
Proof.
  induction rows as [|row rows IH]; simpl; [constructor|].
  destruct (row_cells false row) eqn:E; [exact IH|].
  constructor; [discriminate | exact IH].
Qed.

Lemma row_cells_header h row : Forall (fun c => is_header c = h) (row_cells h row).
Proof.
  induction row as [|[[|c t]|] row IH]; simpl; auto.
Qed.

Lemma body_rows_not_header rows :
  Forall (Forall (fun c => is_header c = false)) (body_rows rows).
Proof.
  induction rows as [|row rows IH]; simpl; [constructor|].
  pose proof (row_cells_header false row) as Hr.
  destruct (row_cells false row) eqn:E; [exact IH|].
  constructor; assumption.
Qed.

(** What an emitted table is made of: at least two rows, none empty. *)
Lemma extract_table_rows t d :
  extract_table t = Some d ->
  2 <= List.length (table_cells d) /\ Forall (fun r => r <> []) (table_cells d).
Proof.
  unfold extract_table. destruct (td_extract t) as [[|row0 rows]|]; try discriminate.
  set (cells := _ ++ body_rows rows).
  destruct (1 <? List.length cells) eqn:E; [|discriminate].
  intros H. inversion H; subst d; simpl. split.
  - apply Nat.ltb_lt in E. lia.
  - subst cells. apply Forall_app. split; [|apply body_rows_nonempty].
    destruct (row_cells true row0); constructor; [discriminate | constructor].
Qed.

Lemma detect_tables_rows found d :
  In d (detect_tables found) ->
  2 <= List.length (table_cells d) /\ Forall (fun r => r <> []) (table_cells d).
Proof.
  destruct found as [tables|]; simpl; [|tauto].
  rewrite in_flat_map. intros (t & _ & Hd).
  destruct (extract_table t) eqn:E; simpl in Hd; [|tauto].
  destruct Hd as [<-|[]]. eapply extract_table_rows; eauto.
Qed.

(** C6.  On a detection whose row 0 is entirely empty and which has two
    non-empty rows after it, [detect_tables] emits a table: it has two
    rows, and no cell of it is marked [is_header].  The emitted table has
    no header row. *)
Theorem detect_tables_headerless :
  detect_tables (Some [headerless_detection])
  = [ {| table_bbox := origin;
         table_cells := [ [ {| cell_text := lit "a"; is_header := false |} ];
                          [ {| cell_text := lit "b"; is_header := false |} ] ] |} ]
  /\ forall d row c, In d (detect_tables (Some [headerless_detection])) ->
       In row (table_cells d) -> In c row -> is_header c = false.
Proof.
  assert (E : detect_tables (Some [headerless_detection])
    = [ {| table_bbox := origin;
           table_cells := [ [ {| cell_text := lit "a"; is_header := false |} ];
                            [ {| cell_text := lit "b"; is_header := false |} ] ] |} ])
    by (vm_compute; reflexivity).
  split; [exact E|].
  rewrite E. intros d row c [<-|[]] Hrow Hc. simpl in Hrow.
  destruct Hrow as [<-|[<-|[]]]; destruct Hc as [<-|[]]; reflexivity.
Qed.

(** ** The layout classifier *)

Lemma block_styling_spans lines :
  block_styling lines = fold_left add_span (spans_of lines) ([], 0%Q, false).
Proof.
  unfold block_styling, spans_of. generalize (@nil char, 0%Q, false).
  induction lines as [|line lines IH]; intros st; simpl; [reflexivity|].
  rewrite fold_left_app. apply IH.
Qed.

(** The styling loop from any starting state: the text only grows by the
    span texts, the size is the running maximum, the flag is sticky. *)
Lemma fold_add_span spans : forall text m bold text' m' bold',
  fold_left add_span spans (text, m, bold) = (text', m', bold') ->
  (m <= m')%Q /\
  Forall (fun sp => (span_size sp <= m')%Q) spans /\
  (m' = m \/ exists sp, In sp spans /\ m' = span_size sp) /\
  bold' = bold || existsb tested_flag spans /\
  (spans = [] -> text' = text).
Proof.
  induction spans as [|sp spans IH]; intros text m bold text' m' bold' H; simpl in H.
  - inversion H; subst. repeat split; auto using Qle_refl.
    now rewrite orb_false_r.
  - apply IH in H. destruct H as (Hm & Hall & Hor & Hb & _).
    repeat split.
    + eapply Qle_trans; [apply py_max_l | exact Hm].
    + constructor; [|exact Hall].
      eapply Qle_trans; [apply py_max_r | exact Hm].
    + destruct Hor as [->|(sp' & Hin & ->)].
      * destruct (py_max_cases m (span_size sp)) as [->| ->]; [now left|].
        right. exists sp. split; [now left | reflexivity].
      * right. exists sp'. split; [now right | reflexivity].
    + rewrite Hb. simpl. unfold tested_flag.
      destruct (N.land (span_flags sp) 2 =? 0)%N; simpl.
      * reflexivity.
      * now rewrite orb_true_r.
    + discriminate.
Qed.

Lemma tag_of_styling_H1 m bold : tag_of_styling m bold = Tag_H1 <-> (14 < m)%Q.
Proof.
  unfold tag_of_styling. destruct (Qgtb m 14) eqn:E.
  - apply Qgtb_true in E. tauto.
  - apply Qgtb_false in E. split.
    + destruct (Qgtb m 12 || bold); discriminate.
    + intros H. exfalso. exact (Qlt_not_le _ _ H E).
Qed.

Lemma tag_of_styling_H2 m bold :
  tag_of_styling m bold = Tag_H2 <-> (m <= 14)%Q /\ ((12 < m)%Q \/ bold = true).
Proof.
  unfold tag_of_styling. destruct (Qgtb m 14) eqn:E.
  - apply Qgtb_true in E. split; [discriminate|].
    intros [H _]. exfalso. exact (Qlt_not_le _ _ E H).
  - apply Qgtb_false in E. destruct (Qgtb m 12) eqn:E2; simpl.
    + apply Qgtb_true in E2. tauto.
    + apply Qgtb_false in E2. destruct bold; split; auto; try discriminate.
      intros [_ [H|H]]; [|discriminate].
      exfalso. exact (Qlt_not_le _ _ H E2).
Qed.

Lemma tag_of_styling_P m bold :
  tag_of_styling m bold = Tag_P <-> (m <= 12)%Q /\ bold = false.
Proof.
  unfold tag_of_styling. destruct (Qgtb m 14) eqn:E.
  - apply Qgtb_true in E. split; [discriminate|].
    intros [H _]. exfalso. apply (Qlt_not_le _ _ E).
    eapply Qle_trans; [exact H | discriminate].
  - apply Qgtb_false in E. destruct (Qgtb m 12) eqn:E2; simpl.
    + apply Qgtb_true in E2. split; [discriminate|].
      intros [H _]. exfalso. exact (Qlt_not_le _ _ E2 H).
    + apply Qgtb_false in E2. destruct bold; split; auto; try discriminate.
      intros [_ H]. discriminate.
Qed.

(** The test of the styling loop reads the italic bit. *)
Lemma tested_flag_italic sp : tested_flag sp = span_italic sp.
Proof.
  unfold tested_flag, span_italic.
  destruct (span_flags sp) as [|[[p|p|]|[p|p|]|]]; reflexivity.
Qed.

(** What the loop body makes of a block with lines, outside every table
    region (by the test of the source) and with non-empty trimmed text:
    an item whose kind is decided by the largest span size [maxFontSize]
    (0 when no span is larger) and by [flagged] (some span has
    [flags & 2], the italic bit): H1 exactly when [maxFontSize > 14], H2
    exactly when [maxFontSize <= 14] and ([maxFontSize > 12] or
    [flagged]), P exactly when [maxFontSize <= 12] and not [flagged]. *)
Lemma analyze_block_tag fsub fadd page_num height table_bboxes b lines :
  block_lines b = Some lines ->
  is_in_table fsub fadd (block_bbox b) table_bboxes = false ->
  strip (fst (fst (block_styling lines))) <> [] ->
  exists y it maxFontSize flagged,
    analyze_block fsub fadd page_num height table_bboxes b = Some (y, it) /\
    (0 <= maxFontSize)%Q /\
    Forall (fun sp => (span_size sp <= maxFontSize)%Q) (spans_of lines) /\
    (maxFontSize = 0%Q \/
     exists sp, In sp (spans_of lines) /\ maxFontSize = span_size sp) /\
    (flagged = true <-> exists sp, In sp (spans_of lines) /\ span_italic sp = true) /\
    (item_type it = Tag_H1 <-> (14 < maxFontSize)%Q) /\
    (item_type it = Tag_H2 <->
     (maxFontSize <= 14)%Q /\ ((12 < maxFontSize)%Q \/ flagged = true)) /\
    (item_type it = Tag_P <-> (maxFontSize <= 12)%Q /\ flagged = false).
Proof.
  intros Hlines Hin Htext.
  unfold analyze_block. rewrite Hlines, Hin.
  destruct (block_styling lines) as [[text m] bold] eqn:Hst. simpl in Htext.
  destruct (strip text) as [|c t] eqn:Hstrip; [congruence|].
  rewrite block_styling_spans in Hst.
  pose proof (fold_add_span _ _ _ _ _ _ _ Hst) as (Hm & Hall & Hor & Hb & Hnil).
  simpl in Hb.
  assert (Hbold : bold = true <->
            exists sp, In sp (spans_of lines) /\ span_italic sp = true).
  { rewrite Hb, existsb_exists.
    split; intros (sp & Hsp & H); exists sp; split; auto.
    - now rewrite <- tested_flag_italic.
    - now rewrite tested_flag_italic. }
  eexists _, _, m, bold. split; [reflexivity|]. simpl.
  split; [exact Hm|]. split; [exact Hall|]. split; [exact Hor|].
  split; [exact Hbold|].
  split; [apply tag_of_styling_H1|].
  split; [apply tag_of_styling_H2|].
  apply tag_of_styling_P.
Qed.

(** C7.  A block of one span "Invoice Total: $500" at size 11, outside
    every table.  Set in bold and not italic (flags 16), it is classified
    P, where a bold block is a Heading2 by the rule; set in italic and
    not bold (flags 2), it is classified H2, where a block that is not
    bold and not larger than 12 is a Paragraph by the rule.  At size 16
    the block is H1, and at size 11 without any flag it is P, as the rule
    says. *)
Theorem bold_block_is_paragraph fsub fadd :
  (exists sp y it,
     block_lines (sample_block 11 16) = Some [[sp]] /\
     span_bold sp = true /\ span_italic sp = false /\
     analyze_block fsub fadd 0 792 [] (sample_block 11 16) = Some (y, it) /\
     item_type it = Tag_P) /\
  (exists sp y it,
     block_lines (sample_block 11 2) = Some [[sp]] /\
     span_bold sp = false /\ span_italic sp = true /\
     analyze_block fsub fadd 0 792 [] (sample_block 11 2) = Some (y, it) /\
     item_type it = Tag_H2) /\
  (exists y it,
     analyze_block fsub fadd 0 792 [] (sample_block 16 0) = Some (y, it) /\
     item_type it = Tag_H1) /\
  (exists y it,
     analyze_block fsub fadd 0 792 [] (sample_block 11 0) = Some (y, it) /\
     item_type it = Tag_P).
Proof.
  repeat split.
  - eexists _, _, _. repeat split; vm_compute; reflexivity.
  - eexists _, _, _. repeat split; vm_compute; reflexivity.
  - eexists _, _. split; vm_compute; reflexivity.
  - eexists _, _. split; vm_compute; reflexivity.
Qed.

Example analyze_block_example :
  analyze_block Qminus Qplus 0 792 [] (sample_block 16 0)
  = Some (100%Q,
          {| item_page := 1; item_type := Tag_H1;
             item_text := Some (lit "Invoice Total: $500");
             item_table_data := None;
             item_bbox := block_bbox (sample_block 16 0);
             item_rect := (72, 672, 228, 20)%Q |}).
Proof. vm_compute. reflexivity. Qed.

(** ** Strings *)

Lemma str_eqb_eq (a b : str) : str_eqb a b = true <-> a = b.
Proof.
  revert b. induction a as [|x a IH]; intros [|y b]; simpl; split;
    try discriminate; try reflexivity.
  - intros H. apply andb_true_iff in H. destruct H as [Hx Ha].
    apply N.eqb_eq in Hx. apply IH in Ha. congruence.
  - intros H. inversion H; subst. apply andb_true_iff. split.
    + apply N.eqb_refl.
    + now apply IH.
Qed.

Lemma lstrip_no_word s : has_word s = false -> lstrip s = [].
Proof.
  induction s as [|c s IH]; simpl; [reflexivity|].
  intros H. apply orb_false_iff in H. destruct H as [Hc Hs].
  apply negb_false_iff in Hc. rewrite Hc. auto.
Qed.

Lemma lstrip_has_word s : has_word (lstrip s) = has_word s.
Proof.
  induction s as [|c s IH]; simpl; [reflexivity|].
  destruct (isspace c) eqn:E; simpl; [exact IH | now rewrite E].
Qed.

Lemma has_word_rev s : has_word (rev s) = has_word s.
Proof.
  unfold has_word. induction s as [|c s IH]; simpl; [reflexivity|].
  rewrite existsb_app, IH. simpl. rewrite orb_false_r. apply orb_comm.
Qed.

Lemma has_word_strip s : has_word (strip s) = has_word s.
Proof.
  unfold strip, rstrip.
  now rewrite has_word_rev, lstrip_has_word, has_word_rev, lstrip_has_word.
Qed.

Lemma strip_has_word s : strip s <> [] -> has_word s = true.
Proof.
  intros H. destruct (has_word s) eqn:E; [reflexivity|].
  exfalso. apply H. unfold strip, rstrip.
  rewrite (lstrip_no_word s E). reflexivity.
Qed.

Lemma split_from_nonempty s : forall cur,
  cur <> [] \/ has_word s = true -> split_from cur s <> [].
Proof.
  induction s as [|c s IH]; intros cur H; simpl.
  - destruct H as [H|H]; [|discriminate]. destruct cur; [congruence | discriminate].
  - simpl in H. destruct (isspace c) eqn:E; simpl in H.
    + destruct cur as [|x cur]; [|discriminate].
      apply IH. right. destruct H as [H|H]; [congruence | exact H].
    + apply IH. left. discriminate.
Qed.

Lemma split_has_word s : has_word s = true -> split s <> [].
Proof. intros H. apply split_from_nonempty. now right. Qed.

(** ** The matcher *)

Ltac qcmp :=
  repeat match goal with
  | H : Qgtb _ _ = true |- _ => apply Qgtb_true in H
  | H : Qgtb _ _ = false |- _ => apply Qgtb_false in H
  end.

Lemma true_div_ok a b :
  b <> 0 -> true_div a b = Ok (Z.of_nat a # Pos.of_nat b).
Proof. destruct b; [congruence | reflexivity]. Qed.

Lemma word_count_ratio_nonneg lower_text lower_item :
  (0 <= word_count_ratio lower_text lower_item)%Q.
Proof. unfold word_count_ratio, Qle. simpl. lia. Qed.

Lemma containment_score_nonneg tl il : (0 <= containment_score tl il)%Q.
Proof.
  unfold containment_score. destruct (containment tl il).
  - apply word_count_ratio_nonneg.
  - apply Qle_refl.
Qed.

Lemma prefix_score_nonneg tl il : (0 <= prefix_score tl il)%Q.
Proof. unfold prefix_score. destruct (prefix_rule tl il); discriminate. Qed.

Lemma item_score_nonneg lower text it : (0 <= item_score lower text it)%Q.
Proof.
  unfold item_score. eapply Qle_trans; [|apply py_max_l].
  apply containment_score_nonneg.
Qed.

(** *** The word count of the matcher is the size of the intersection of
    the word sets *)

Lemma in_words_iff w ws : in_words w ws = true <-> In w ws.
Proof. unfold in_words. destruct (in_dec str_dec w ws); split; auto; discriminate. Qed.

Lemma mem_str_in_words w ws : mem_str w ws = in_words w ws.
Proof.
  unfold mem_str. destruct (in_words w ws) eqn:E.
  - apply in_words_iff in E. apply existsb_exists. exists w. split; [exact E|].
    now apply str_eqb_eq.
  - destruct (existsb (str_eqb w) ws) eqn:E'; [|reflexivity].
    apply existsb_exists in E'. destruct E' as (x & Hx & Heq).
    apply str_eqb_eq in Heq. subst x. apply in_words_iff in Hx. congruence.
Qed.

Lemma in_words_cons_other w x seen : x <> w -> in_words x (w :: seen) = in_words x seen.
Proof.
  intros Hne. destruct (in_words x seen) eqn:E.
  - apply in_words_iff. right. now apply in_words_iff.
  - destruct (in_words x (w :: seen)) eqn:E'; [|reflexivity].
    apply in_words_iff in E'. destruct E' as [->|H]; [congruence|].
    apply in_words_iff in H. congruence.
Qed.

(** Marking a counted word of a duplicate-free list as seen lowers the
    count by one. *)
Lemma filter_seen_one ws2 w seen l :
  NoDup l -> In w l -> in_words w ws2 = true -> in_words w seen = false ->
  List.length (filter (fun x => in_words x ws2 && negb (in_words x seen)) l)
  = S (List.length (filter (fun x => in_words x ws2 && negb (in_words x (w :: seen))) l)).
Proof.
  intros Hnd Hin H2 Hseen. induction Hnd as [|x l Hx Hnd IH]; [destruct Hin|].
  cbn [filter]. destruct (str_dec x w) as [->|Hne].
  - rewrite H2, Hseen.
    assert (Hw : in_words w (w :: seen) = true) by (apply in_words_iff; now left).
    rewrite Hw. cbn [andb negb List.length]. f_equal. f_equal.
    apply filter_ext_in. intros y Hy.
    rewrite in_words_cons_other; [reflexivity|]. intros ->. contradiction.
  - rewrite (in_words_cons_other w x seen Hne).
    destruct Hin as [->|Hin]; [congruence|]. specialize (IH Hin).
    destruct (in_words x ws2 && negb (in_words x seen)); cbn [List.length]; now rewrite IH.
Qed.

Lemma count_common_filter ws2 ws1 : forall seen,
  count_common seen ws1 ws2
  = List.length (filter (fun x => in_words x ws2 && negb (in_words x seen)) (word_set ws1)).
Proof.
  unfold word_set.
  induction ws1 as [|w ws1 IH]; intros seen; [reflexivity|].
  cbn [count_common nodup]. rewrite !mem_str_in_words.
  destruct (in_words w seen) eqn:Hseen.
  - rewrite IH. destruct (in_dec str_dec w ws1); [reflexivity|].
    cbn [filter]. rewrite Hseen, andb_false_r. reflexivity.
  - destruct (in_words w ws2) eqn:H2.
    + rewrite IH. destruct (in_dec str_dec w ws1) as [Hin|Hnin].
      * symmetry. apply filter_seen_one; auto.
        -- apply NoDup_nodup.
        -- now apply nodup_In.
      * cbn [filter]. rewrite H2, Hseen. cbn [andb negb List.length]. f_equal. f_equal.
        apply filter_ext_in. intros y Hy. apply nodup_In in Hy.
        rewrite in_words_cons_other; [reflexivity|]. intros ->. contradiction.
    + rewrite IH.
      assert (Hext : forall l,
                filter (fun x => in_words x ws2 && negb (in_words x (w :: seen))) l
                = filter (fun x => in_words x ws2 && negb (in_words x seen)) l).
      { intros l. apply filter_ext. intros y. destruct (str_dec y w) as [->|Hne].
        - now rewrite H2.
        - now rewrite in_words_cons_other. }
      rewrite Hext. destruct (in_dec str_dec w ws1); [reflexivity|].
      cbn [filter]. now rewrite H2.
Qed.

Lemma set_inter_size_common ws1 ws2 : set_inter_size ws1 ws2 = common_words ws1 ws2.
Proof.
  unfold set_inter_size, common_words. rewrite count_common_filter. f_equal.
  apply filter_ext. intros x. unfold in_words at 2. simpl. apply andb_true_r.
Qed.

Lemma word_set_length ws : List.length (word_set ws) <= List.length ws.
Proof.
  unfold word_set. induction ws as [|w ws IH]; simpl; [lia|].
  destruct (in_dec str_dec w ws); simpl; lia.
Qed.

Lemma word_set_nonempty ws : ws <> [] -> 1 <= List.length (word_set ws).
Proof.
  intros H. destruct ws as [|w ws]; [congruence|].
  assert (Hin : In w (word_set (w :: ws))) by (apply nodup_In; now left).
  destruct (word_set (w :: ws)); [destruct Hin | simpl; lia].
Qed.

(** Counting repeated words can only lower the ratio. *)
Lemma word_count_ratio_le_word_set tl il :
  split il <> [] -> (word_count_ratio tl il <= word_set_ratio tl il)%Q.
Proof.
  intros Hne. unfold word_count_ratio, word_set_ratio, Qle. cbn [Qnum Qden].
  set (a := common_words (split tl) (split il)).
  pose proof (word_set_length (split tl)) as H1.
  pose proof (word_set_length (split il)) as H2.
  pose proof (word_set_nonempty (split il) Hne) as H3.
  set (m := Nat.max (List.length (split tl)) (List.length (split il))) in *.
  set (d := Nat.max (List.length (word_set (split tl)))
                    (List.length (word_set (split il)))) in *.
  assert (Hd : 1 <= d <= m) by (unfold d, m; lia).
  rewrite <- !positive_nat_Z, !Nat2Pos.id by lia.
  apply Z.mul_le_mono_nonneg_l; lia.
Qed.

Section MatcherProperties.

Variable lower : str -> str.

(** [str.lower] keeps whitespace and non-whitespace apart: a string has
    a non-whitespace character exactly when its lower-cased form has. *)
Hypothesis lower_has_word : forall s, has_word (lower s) = has_word s.

Lemma item_words text it :
  strip (get_text it) <> [] ->
  Nat.max (List.length (split (lower text)))
          (List.length (split (lower (strip (get_text it))))) <> 0.
Proof.
  intros H.
  assert (Hw : split (lower (strip (get_text it))) <> []).
  { apply split_has_word. rewrite lower_has_word.
    unfold strip, rstrip in *.
    destruct (has_word (rev (lstrip (rev (lstrip (get_text it)))))) eqn:E; [reflexivity|].
    exfalso. apply H.
    rewrite has_word_rev, lstrip_has_word in E.
    rewrite (lstrip_no_word _ E). reflexivity. }
  destruct (split (lower (strip (get_text it)))); [congruence|]. simpl. lia.
Qed.

Lemma item_split it :
  strip (get_text it) <> [] -> split (lower (strip (get_text it))) <> [].
Proof.
  intros H. apply split_has_word.
  rewrite lower_has_word, has_word_strip. now apply strip_has_word.
Qed.

(** One iteration of the loop, in the words of the scoring rules. *)
Lemma match_step_spec text used idx it b s :
  (0 <= s)%Q ->
  match_step lower text used idx it b s =
  Ok (if eligible used idx it
      then if exact_match lower text it then Return idx
           else Continue (fst (update_best idx (b, s) (item_score lower text it)))
                         (snd (update_best idx (b, s) (item_score lower text it)))
      else Continue b s).
Proof.
  intros Hs. unfold match_step, eligible, exact_match.
  destruct (existsb (Nat.eqb idx) used); cbn [negb andb]; [reflexivity|].
  destruct (tag_eqb (item_type it) Tag_Table); cbn [negb andb]; [reflexivity|].
  pose proof (item_words text it) as Hden.
  unfold item_score, containment_score, prefix_score, word_count_ratio, update_best,
    py_max, containment, prefix_rule.
  destruct (strip (get_text it)) as [|c t] eqn:Hstrip; [reflexivity|].
  specialize (Hden ltac:(discriminate)).
  destruct (str_eqb (lower text) (lower (c :: t))); [reflexivity|].
  rewrite set_inter_size_common.
  rewrite (true_div_ok _ _ Hden).
  set (r := Z.of_nat _ # _).
  assert (Hr : (0 <= r)%Q) by (unfold r, Qle; simpl; lia).
  clearbody r.
  generalize (contains (lower (c :: t)) (lower text)
              || contains (lower text) (lower (c :: t))).
  generalize (startswith (lower text)
                (firstn (Nat.min 20 (List.length (lower (c :: t)))) (lower (c :: t)))).
  intros pb cb. destruct cb, pb; simpl.
  all: try (destruct (Qgtb r s) eqn:?; simpl).
  all: try (destruct (Qgtb 0.8 r) eqn:?; simpl).
  all: try (destruct (Qgtb 0 r) eqn:?; simpl).
  all: repeat match goal with
       | |- context [Qgtb ?a ?b] => destruct (Qgtb a b) eqn:?; simpl
       end; try reflexivity; exfalso; qcmp; simpl in *; lra.
Qed.

Lemma update_best_cases idx b s x :
  (update_best idx (b, s) x = (Some idx, x) /\ (s < x)%Q) \/
  (update_best idx (b, s) x = (b, s) /\ (x <= s)%Q).
Proof.
  unfold update_best. simpl. destruct (Qgtb x s) eqn:E; qcmp; auto.
Qed.

(** The loop from any state [(b, s)] at position [idx]: either it
    returns at the first eligible item that is equal to the run, or no
    eligible item is equal and the loop ends with the running best over
    the scores, which it returns when above 0.3. *)
Lemma match_loop_spec text used items : forall idx b s,
  (0 <= s)%Q ->
  exists r,
    match_loop lower text used idx items b s = Ok r /\
    ((exists k it,
        nth_error items k = Some it /\
        eligible used (idx + k) it = true /\
        exact_match lower text it = true /\
        (forall j jt, j < k -> nth_error items j = Some jt ->
           eligible used (idx + j) jt = true -> exact_match lower text jt = false) /\
        r = Some (idx + k))
     \/
     ((forall j jt, nth_error items j = Some jt ->
         eligible used (idx + j) jt = true -> exact_match lower text jt = false) /\
      exists bf sf,
        r = (if Qgtb sf 0.3 then bf else None) /\
        (s <= sf)%Q /\
        (forall j jt, nth_error items j = Some jt ->
           eligible used (idx + j) jt = true -> (item_score lower text jt <= sf)%Q) /\
        ((bf = b /\ sf = s) \/
         (exists k kt,
            bf = Some (idx + k) /\
            nth_error items k = Some kt /\
            eligible used (idx + k) kt = true /\
            sf = item_score lower text kt /\
            (s < sf)%Q /\
            (forall j jt, j < k -> nth_error items j = Some jt ->
               eligible used (idx + j) jt = true ->
               (item_score lower text jt < sf)%Q))))).
Proof.
  induction items as [|it items IH]; intros idx b s Hs.
  - exists (if Qgtb s 0.3 then b else None). split; [reflexivity|].
    right. split.
    + intros [|j] jt H; discriminate.
    + exists b, s. repeat split; auto using Qle_refl.
      intros [|j] jt H; discriminate.
  - cbn [match_loop]. rewrite (match_step_spec _ _ _ _ _ _ Hs).
    cbn [bind].
    destruct (eligible used idx it) eqn:Hel.
    + destruct (exact_match lower text it) eqn:Hex.
      * exists (Some idx). split; [reflexivity|]. left.
        exists 0, it. rewrite Nat.add_0_r. repeat split; auto.
        intros j jt Hj. lia.
      * destruct (update_best_cases idx b s (item_score lower text it))
          as [[Hu Hlt]|[Hu Hle]]; rewrite Hu; cbn [fst snd].
        -- (* the item becomes the running best *)
           destruct (IH (S idx) (Some idx) (item_score lower text it)
                        (item_score_nonneg _ _ _)) as (r & Hr & Hcases).
           exists r. split; [exact Hr|].
           destruct Hcases as [(k & kt & Hk & Hkel & Hkex & Hfirst & ->)
                              |(Hnone & bf & sf & -> & Hsf & Hall & Hbest)].
           ++ left. exists (S k), kt. rewrite Nat.add_succ_r.
              repeat split; auto.
              intros [|j] jt Hj Hnth Hjel.
              ** simpl in Hnth. inversion Hnth; subst jt. exact Hex.
              ** rewrite Nat.add_succ_r in Hjel. apply (Hfirst j jt); auto. lia.
           ++ right. split.
              ** intros [|j] jt Hnth Hjel.
                 --- simpl in Hnth. inversion Hnth; subst jt. exact Hex.
                 --- rewrite Nat.add_succ_r in Hjel. apply (Hnone j jt); auto.
              ** exists bf, sf. split; [reflexivity|]. split; [lra|]. split.
                 --- intros [|j] jt Hnth Hjel.
                     +++ simpl in Hnth. inversion Hnth; subst jt. exact Hsf.
                     +++ rewrite Nat.add_succ_r in Hjel. apply (Hall j jt); auto.
                 --- right.
                     destruct Hbest as [[-> ->]
                                       |(k & kt & -> & Hk & Hkel & -> & Hgt & Hbefore)].
                     +++ exists 0, it. rewrite Nat.add_0_r. repeat split; auto.
                         intros j jt Hj. lia.
                     +++ exists (S k), kt. rewrite Nat.add_succ_r.
                         repeat split; auto; [lra|].
                         intros [|j] jt Hj Hnth Hjel.
                         *** simpl in Hnth. inversion Hnth; subst jt. exact Hgt.
                         *** rewrite Nat.add_succ_r in Hjel.
                             apply (Hbefore j jt); auto. lia.
        -- (* the running best stays *)
           destruct (IH (S idx) b s Hs) as (r & Hr & Hcases).
           exists r. split; [exact Hr|].
           destruct Hcases as [(k & kt & Hk & Hkel & Hkex & Hfirst & ->)
                              |(Hnone & bf & sf & -> & Hsf & Hall & Hbest)].
           ++ left. exists (S k), kt. rewrite Nat.add_succ_r.
              repeat split; auto.
              intros [|j] jt Hj Hnth Hjel.
              ** simpl in Hnth. inversion Hnth; subst jt. exact Hex.
              ** rewrite Nat.add_succ_r in Hjel. apply (Hfirst j jt); auto. lia.
           ++ right. split.
              ** intros [|j] jt Hnth Hjel.
                 --- simpl in Hnth. inversion Hnth; subst jt. exact Hex.
                 --- rewrite Nat.add_succ_r in Hjel. apply (Hnone j jt); auto.
              ** exists bf, sf. split; [reflexivity|]. split; [exact Hsf|]. split.
                 --- intros [|j] jt Hnth Hjel.
                     +++ simpl in Hnth. inversion Hnth; subst jt. lra.
                     +++ rewrite Nat.add_succ_r in Hjel. apply (Hall j jt); auto.
                 --- destruct Hbest as [[-> ->]
                                       |(k & kt & -> & Hk & Hkel & -> & Hgt & Hbefore)].
                     +++ left. auto.
                     +++ right. exists (S k), kt. rewrite Nat.add_succ_r.
                         repeat split; auto.
                         intros [|j] jt Hj Hnth Hjel.
                         *** simpl in Hnth. inversion Hnth; subst jt. lra.
                         *** rewrite Nat.add_succ_r in Hjel.
                             apply (Hbefore j jt); auto. lia.
    + (* the item is skipped *)
      destruct (IH (S idx) b s Hs) as (r & Hr & Hcases).
      exists r. split; [exact Hr|].
      destruct Hcases as [(k & kt & Hk & Hkel & Hkex & Hfirst & ->)
                         |(Hnone & bf & sf & -> & Hsf & Hall & Hbest)].
      * left. exists (S k), kt. rewrite Nat.add_succ_r.
        repeat split; auto.
        intros [|j] jt Hj Hnth Hjel.
        -- simpl in Hnth. inversion Hnth; subst jt.
           rewrite Nat.add_0_r in Hjel. congruence.
        -- rewrite Nat.add_succ_r in Hjel. apply (Hfirst j jt); auto. lia.
      * right. split.
        -- intros [|j] jt Hnth Hjel.
           ++ simpl in Hnth. inversion Hnth; subst jt.
              rewrite Nat.add_0_r in Hjel. congruence.
           ++ rewrite Nat.add_succ_r in Hjel. apply (Hnone j jt); auto.
        -- exists bf, sf. split; [reflexivity|]. split; [exact Hsf|]. split.
           ++ intros [|j] jt Hnth Hjel.
              ** simpl in Hnth. inversion Hnth; subst jt.
                 rewrite Nat.add_0_r in Hjel. congruence.
              ** rewrite Nat.add_succ_r in Hjel. apply (Hall j jt); auto.
           ++ destruct Hbest as [[-> ->]
                                |(k & kt & -> & Hk & Hkel & -> & Hgt & Hbefore)].
              ** left. auto.
              ** right. exists (S k), kt. rewrite Nat.add_succ_r.
                 repeat split; auto.
                 intros [|j] jt Hj Hnth Hjel.
                 --- simpl in Hnth. inversion Hnth; subst jt.
                     rewrite Nat.add_0_r in Hjel. congruence.
                 --- rewrite Nat.add_succ_r in Hjel.
                     apply (Hbefore j jt); auto. lia.
Qed.

Lemma eligible_has_text used idx it :
  eligible used idx it = true -> strip (get_text it) <> [].
Proof.
  unfold eligible. intros H. apply andb_true_iff in H. destruct H as [_ H].
  destruct (strip (get_text it)); [discriminate | discriminate].
Qed.

Lemma exact_match_nonempty text used idx it :
  eligible used idx it = true -> exact_match lower text it = true -> text <> [].
Proof.
  intros Hel Hex. apply str_eqb_eq in Hex.
  apply eligible_has_text, strip_has_word in Hel.
  rewrite <- has_word_strip, <- lower_has_word, <- Hex, lower_has_word in Hel.
  intros ->. discriminate.
Qed.

Lemma find_best_match_loop text items used :
  text <> [] ->
  find_best_match lower text items used = match_loop lower text used 0 items None 0%Q.
Proof. destruct text; [congruence | reflexivity]. Qed.

(** The matcher never raises, and what it returns is the position of
    an eligible item. *)
Lemma find_best_match_ok text items used :
  exists r,
    find_best_match lower text items used = Ok r /\
    forall i, r = Some i ->
      exists it, nth_error items i = Some it /\ eligible used i it = true.
Proof.
  destruct text as [|c t] eqn:Htext.
  { exists None. split; [reflexivity | discriminate]. }
  rewrite <- Htext. rewrite find_best_match_loop by congruence.
  destruct (match_loop_spec text used items 0 None 0%Q (Qle_refl 0))
    as (r & Hr & [(k & kt & Hk & Hkel & _ & _ & ->)
                 |(_ & bf & sf & -> & _ & _ & Hbest)]).
  - exists (Some (0 + k)). split; [exact Hr|].
    intros i Hi. inversion Hi; subst i. exists kt. auto.
  - eexists. split; [exact Hr|]. intros i Hi.
    destruct (Qgtb sf 0.3); [|discriminate]. subst bf.
    destruct Hbest as [[? _]|(k & kt & Hk' & Hk & Hkel & _)]; [discriminate|].
    inversion Hk'; subst i. exists kt. auto.
Qed.

(** C3.  If some eligible item is equal to the run text up to case, the
    matcher returns an eligible item with that equality (the first one),
    whatever the scores of the other candidates are. *)
Theorem exact_match_wins text items used :
  (exists i it, nth_error items i = Some it /\
                eligible used i it = true /\
                exact_match lower text it = true) ->
  exists j jt,
    find_best_match lower text items used = Ok (Some j) /\
    nth_error items j = Some jt /\
    eligible used j jt = true /\
    lower text = lower (strip (get_text jt)) /\
    (forall k kt, k < j -> nth_error items k = Some kt ->
       eligible used k kt = true -> lower text <> lower (strip (get_text kt))).
Proof.
  intros (i & it & Hi & Hel & Hex).
  rewrite (find_best_match_loop _ _ _ (exact_match_nonempty _ _ _ _ Hel Hex)).
  destruct (match_loop_spec text used items 0 None 0%Q (Qle_refl 0))
    as (r & Hr & [(k & kt & Hk & Hkel & Hkex & Hfirst & ->)|(Hnone & _)]).
  - exists k, kt. simpl in *. repeat split; auto.
    + apply str_eqb_eq, Hkex.
    + intros j jt Hj Hnth Hjel Heq.
      specialize (Hfirst j jt Hj Hnth Hjel).
      apply str_eqb_eq in Heq. unfold exact_match in Hfirst. congruence.
  - specialize (Hnone i it Hi Hel). congruence.
Qed.

(** C4, with the score the matcher computes: rule 2 divides the size of
    the word-set intersection by the larger number of words, repeated
    words counted ([item_score] over [word_count_ratio]).  The matcher
    never raises.  An empty run text matches nothing.  When it returns an
    item that is not equal to the run text, no eligible item is equal to
    it, the item's score exceeds 0.3, no eligible item has a higher score
    and every earlier one has a strictly lower score; such an item
    satisfies the prefix rule or the containment rule with a ratio above
    0.3, by the count of words and so also by the size of the word sets.
    When it returns nothing for a non-empty run, no eligible item is
    equal to the run and no score exceeds 0.3. *)
Theorem best_match_selection text items used :
  find_best_match lower [] items used = Ok None /\
  exists r,
    find_best_match lower text items used = Ok r /\
    (forall i, r = Some i ->
       exists it,
         nth_error items i = Some it /\
         eligible used i it = true /\
         (exact_match lower text it = true \/
          ((forall j jt, nth_error items j = Some jt -> eligible used j jt = true ->
              exact_match lower text jt = false) /\
           (0.3 < item_score lower text it)%Q /\
           (forall j jt, nth_error items j = Some jt -> eligible used j jt = true ->
              (item_score lower text jt <= item_score lower text it)%Q /\
              (j < i -> (item_score lower text jt < item_score lower text it)%Q)) /\
           (prefix_rule (lower text) (lower (strip (get_text it))) = true \/
            (containment (lower text) (lower (strip (get_text it))) = true /\
             (0.3 < word_count_ratio (lower text) (lower (strip (get_text it))))%Q /\
             (0.3 < word_set_ratio (lower text) (lower (strip (get_text it))))%Q))))) /\
    (r = None ->
       text = [] \/
       forall j jt, nth_error items j = Some jt -> eligible used j jt = true ->
         exact_match lower text jt = false /\ (item_score lower text jt <= 0.3)%Q).
Proof.
  split; [reflexivity|].
  destruct text as [|c t] eqn:Htext.
  { exists None. split; [reflexivity|]. split; [discriminate | auto]. }
  rewrite <- Htext. rewrite find_best_match_loop by congruence.
  destruct (match_loop_spec text used items 0 None 0%Q (Qle_refl 0))
    as (r & Hr & [(k & kt & Hk & Hkel & Hkex & Hfirst & ->)
                 |(Hnone & bf & sf & -> & Hsf & Hall & Hbest)]).
  - exists (Some (0 + k)). split; [exact Hr|]. simpl. split.
    + intros i Hi. inversion Hi; subst i. exists kt. auto.
    + discriminate.
  - eexists. split; [exact Hr|]. simpl in *.
    destruct (Qgtb sf 0.3) eqn:Hthr; qcmp.
    + split; [|intros ->; destruct Hbest as [[? ?]|(k & kt & ? & _)]; subst; [lra | discriminate]].
      intros i ->.
      destruct Hbest as [[? ?]|(k & kt & Hi & Hk & Hkel & -> & Hgt & Hbefore)];
        [discriminate|].
      inversion Hi; subst i. exists kt. split; [exact Hk|]. split; [exact Hkel|].
      right. split; [exact Hnone|]. split; [exact Hthr|]. split.
      * intros j jt Hj Hjel. split; [apply (Hall j jt); auto|].
        intros Hlt. apply (Hbefore j jt); auto.
      * unfold item_score in Hthr.
        destruct (py_max_cases
                    (containment_score (lower text) (lower (strip (get_text kt))))
                    (prefix_score (lower text) (lower (strip (get_text kt)))))
          as [E|E]; rewrite E in Hthr.
        -- right. unfold containment_score in Hthr.
           destruct (containment (lower text) (lower (strip (get_text kt))));
             [|lra].
           pose proof (word_count_ratio_le_word_set (lower text) _
                         (item_split kt (eligible_has_text _ _ _ Hkel))).
           repeat split; auto. lra.
        -- left. unfold prefix_score in Hthr.
           destruct (prefix_rule (lower text) (lower (strip (get_text kt))));
             [auto | lra].
    + split; [discriminate|]. intros _. right.
      intros j jt Hj Hjel. split; [apply (Hnone j jt); auto|].
      specialize (Hall j jt Hj Hjel). lra.
Qed.

Lemma prefix_rule_firstn tl il :
  prefix_rule tl il = startswith tl (firstn 20 il).
Proof.
  unfold prefix_rule. f_equal.
  destruct (Nat.le_ge_cases 20 (List.length il)) as [H|H].
  - now rewrite Nat.min_l.
  - rewrite Nat.min_r by exact H.
    rewrite firstn_all. symmetry. now apply firstn_all2.
Qed.

(** C5, with the containment score the matcher computes (the size of
    the word-set intersection over the larger number of words, repeated
    words counted; 0 when neither string contains the other).  For an
    eligible item that is not equal to the run text, one pass of the loop
    scores it with the higher of its containment score and its prefix
    score, and replaces the running best [(b, s)] exactly when that score
    is strictly higher; if the lower-cased run text starts with the first
    20 characters of the lower-cased item text (all of it when shorter),
    the prefix score is 0.8 and the item's score is at least 0.8. *)
Theorem prefix_rule_score text used idx it b s :
  (0 <= s)%Q ->
  eligible used idx it = true ->
  exact_match lower text it = false ->
  let text_lower := lower text in
  let item_lower := lower (strip (get_text it)) in
  let score := item_score lower text it in
  match_step lower text used idx it b s
  = Ok (Continue (if Qgtb score s then Some idx else b)
                 (if Qgtb score s then score else s)) /\
  (containment_score text_lower item_lower <= score)%Q /\
  (prefix_score text_lower item_lower <= score)%Q /\
  (score = containment_score text_lower item_lower \/
   score = prefix_score text_lower item_lower) /\
  (startswith text_lower (firstn 20 item_lower) = true ->
   prefix_score text_lower item_lower = 0.8%Q /\ (0.8 <= score)%Q).
Proof.
  intros Hs Hel Hex text_lower item_lower score.
  split.
  { rewrite (match_step_spec _ _ _ _ _ _ Hs), Hel, Hex.
    unfold update_best. cbn [snd]. fold score.
    destruct (Qgtb score s); reflexivity. }
  split; [apply py_max_l|]. split; [apply py_max_r|].
  split; [apply py_max_cases|].
  intros Hp. rewrite <- prefix_rule_firstn in Hp.
  assert (E : prefix_score text_lower item_lower = 0.8%Q).
  { unfold prefix_score. now rewrite Hp. }
  split; [exact E|].
  unfold score, item_score. fold text_lower item_lower.
  rewrite <- E at 1. apply py_max_r.
Qed.

End MatcherProperties.

(** ** The Latin-1 lower-casing function has the property the matcher
    relies on *)

Ltac decide_cmp :=
  repeat match goal with
  | |- context [(?a <=? ?b)%N] => destruct (N.leb_spec a b); try lia
  | |- context [(?a =? ?b)%N] => destruct (N.eqb_spec a b); try lia
  end.

Lemma latin1_lower_char_space c : isspace (latin1_lower_char c) = isspace c.
Proof.
  unfold latin1_lower_char.
  destruct (((65 <=? c) && (c <=? 90)
             || (192 <=? c) && (c <=? 222) && negb (c =? 215))%N) eqn:E;
    [|reflexivity].
  assert (H : (65 <= c <= 90 \/ 192 <= c <= 222)%N).
  { apply orb_true_iff in E. destruct E as [E|E].
    - apply andb_true_iff in E. destruct E as [E1 E2].
      apply N.leb_le in E1, E2. lia.
    - apply andb_true_iff in E. destruct E as [E _].
      apply andb_true_iff in E. destruct E as [E1 E2].
      apply N.leb_le in E1, E2. lia. }
  clear E. unfold isspace. decide_cmp; try reflexivity.
Qed.

Lemma latin1_lower_has_word s : has_word (latin1_lower s) = has_word s.
Proof.
  unfold has_word, latin1_lower. induction s as [|c s IH]; simpl; [reflexivity|].
  now rewrite latin1_lower_char_space, IH.
Qed.

Lemma exact_match_wins_witness :
  exists j jt,
    find_best_match latin1_lower (lit "invoice total")
      [text_item 1 Tag_P "Invoice total due"; text_item 1 Tag_H1 "Invoice Total"] []
    = Ok (Some j) /\
    nth_error [text_item 1 Tag_P "Invoice total due"; text_item 1 Tag_H1 "Invoice Total"] j
    = Some jt /\
    eligible [] j jt = true /\
    latin1_lower (lit "invoice total") = latin1_lower (strip (get_text jt)) /\
    (forall k kt, k < j ->
       nth_error [text_item 1 Tag_P "Invoice total due"; text_item 1 Tag_H1 "Invoice Total"] k
       = Some kt ->
       eligible [] k kt = true ->
       latin1_lower (lit "invoice total") <> latin1_lower (strip (get_text kt))).
Proof.
  apply (exact_match_wins latin1_lower latin1_lower_has_word).
  exists 1, (text_item 1 Tag_H1 "Invoice Total").
  repeat split; vm_compute; reflexivity.
Defined.

Lemma best_match_selection_witness :
  find_best_match latin1_lower []
    [text_item 1 Tag_H1 "Invoice total due now"; text_item 1 Tag_P "due"] []
  = Ok None /\
  exists r,
    find_best_match latin1_lower (lit "total due now")
      [text_item 1 Tag_H1 "Invoice total due now"; text_item 1 Tag_P "due"] []
    = Ok r /\
    (forall i, r = Some i ->
       exists it,
         nth_error [text_item 1 Tag_H1 "Invoice total due now";
                    text_item 1 Tag_P "due"] i = Some it /\
         eligible [] i it = true /\
         (exact_match latin1_lower (lit "total due now") it = true \/
          ((forall j jt,
              nth_error [text_item 1 Tag_H1 "Invoice total due now";
                         text_item 1 Tag_P "due"] j = Some jt ->
              eligible [] j jt = true ->
              exact_match latin1_lower (lit "total due now") jt = false) /\
           (0.3 < item_score latin1_lower (lit "total due now") it)%Q /\
           (forall j jt,
              nth_error [text_item 1 Tag_H1 "Invoice total due now";
                         text_item 1 Tag_P "due"] j = Some jt ->
              eligible [] j jt = true ->
              (item_score latin1_lower (lit "total due now") jt
               <= item_score latin1_lower (lit "total due now") it)%Q /\
              (j < i ->
               (item_score latin1_lower (lit "total due now") jt
                < item_score latin1_lower (lit "total due now") it)%Q)) /\
           (prefix_rule (latin1_lower (lit "total due now"))
                        (latin1_lower (strip (get_text it))) = true \/
            (containment (latin1_lower (lit "total due now"))
                         (latin1_lower (strip (get_text it))) = true /\
             (0.3 < word_count_ratio (latin1_lower (lit "total due now"))
                                     (latin1_lower (strip (get_text it))))%Q /\
             (0.3 < word_set_ratio (latin1_lower (lit "total due now"))
                                   (latin1_lower (strip (get_text it))))%Q))))) /\
    (r = None ->
       lit "total due now" = [] \/
       forall j jt,
         nth_error [text_item 1 Tag_H1 "Invoice total due now";
                    text_item 1 Tag_P "due"] j = Some jt ->
         eligible [] j jt = true ->
         exact_match latin1_lower (lit "total due now") jt = false /\
         (item_score latin1_lower (lit "total due now") jt <= 0.3)%Q).
Proof.
  exact (best_match_selection latin1_lower latin1_lower_has_word
           (lit "total due now")
           [text_item 1 Tag_H1 "Invoice total due now"; text_item 1 Tag_P "due"]
           []).
Defined.

(** The run of the statement above: both items are scored by the
    containment rule, the first with three common words of four, the
    second with one of three. *)
Example best_match_containment :
  find_best_match latin1_lower (lit "total due now")
    [text_item 1 Tag_H1 "Invoice total due now"; text_item 1 Tag_P "due"] []
  = Ok (Some 0)
  /\ item_score latin1_lower (lit "total due now")
       (text_item 1 Tag_H1 "Invoice total due now") = (3 # 4)%Q
  /\ item_score latin1_lower (lit "total due now") (text_item 1 Tag_P "due") = (1 # 3)%Q
  /\ prefix_rule (latin1_lower (lit "total due now"))
       (latin1_lower (lit "Invoice total due now")) = false.
Proof. vm_compute. auto. Qed.

Example best_match_example :
  find_best_match latin1_lower (lit "Invoice total due")
    [text_item 1 Tag_H1 "Invoice Total"; text_item 1 Tag_P "Invoice total due now"] []
  = Ok (Some 0)
  /\ item_score latin1_lower (lit "Invoice total due") (text_item 1 Tag_H1 "Invoice Total")
     = 0.8%Q
  /\ item_score latin1_lower (lit "Invoice total due")
       (text_item 1 Tag_P "Invoice total due now") = (3 # 4)%Q.
Proof. vm_compute. auto. Qed.

(** Rule 2 as the specification words it ranks the second item higher
    (two common words over a larger word set of three, against three
    over five); the matcher, which divides by the number of words, gives
    three eighths to the first and two sixths to the second, and returns
    the first. *)
Lemma best_match_not_highest :
  find_best_match latin1_lower (lit "x x x x y z")
    [text_item 1 Tag_P "x x x x y z w v"; text_item 1 Tag_P "y z"] [] = Ok (Some 0) /\
  eligible [] 0 (text_item 1 Tag_P "x x x x y z w v") = true /\
  eligible [] 1 (text_item 1 Tag_P "y z") = true /\
  exact_match latin1_lower (lit "x x x x y z") (text_item 1 Tag_P "y z") = false /\
  (rule_score latin1_lower (lit "x x x x y z") (text_item 1 Tag_P "x x x x y z w v")
   < rule_score latin1_lower (lit "x x x x y z") (text_item 1 Tag_P "y z"))%Q.
Proof. vm_compute. auto. Qed.

(** A run and an item with the same word set, the item contained in the
    run: rule 2 as worded gives the pair the score 1, the matcher a
    quarter, and the run stays unmatched. *)
Example unmatched_with_equal_word_sets :
  find_best_match latin1_lower (lit "x y y y y y y x") [text_item 1 Tag_P "y x"] [] = Ok None /\
  eligible [] 0 (text_item 1 Tag_P "y x") = true /\
  (rule_score latin1_lower (lit "x y y y y y y x") (text_item 1 Tag_P "y x") == 1)%Q /\
  item_score latin1_lower (lit "x y y y y y y x") (text_item 1 Tag_P "y x") = (2 # 8)%Q.
Proof. vm_compute. auto. Qed.

(** A run that starts with the whole of a shorter item: the prefix rule
    gives 0.8, the containment rule nine tenths, and the item is scored
    with the latter. *)
Lemma prefix_rule_score_witness :
  match_step latin1_lower (lit "a b c d e f g h i j") [] 0
    (text_item 1 Tag_H1 "A B C D E F G H I") None 0
  = Ok (Continue (Some 0) (9 # 10)%Q) /\
  item_score latin1_lower (lit "a b c d e f g h i j") (text_item 1 Tag_H1 "A B C D E F G H I")
  = containment_score (latin1_lower (lit "a b c d e f g h i j"))
      (latin1_lower (strip (get_text (text_item 1 Tag_H1 "A B C D E F G H I")))) /\
  prefix_score (latin1_lower (lit "a b c d e f g h i j"))
    (latin1_lower (strip (get_text (text_item 1 Tag_H1 "A B C D E F G H I")))) = 0.8%Q /\
  (0.8 <= item_score latin1_lower (lit "a b c d e f g h i j")
            (text_item 1 Tag_H1 "A B C D E F G H I"))%Q.
Proof.
  assert (H0 : (0 <= 0)%Q) by apply Qle_refl.
  assert (Hel : eligible [] 0 (text_item 1 Tag_H1 "A B C D E F G H I") = true)
    by reflexivity.
  assert (Hex : exact_match latin1_lower (lit "a b c d e f g h i j")
                  (text_item 1 Tag_H1 "A B C D E F G H I") = false) by reflexivity.
  destruct (prefix_rule_score latin1_lower latin1_lower_has_word
              (lit "a b c d e f g h i j") [] 0 (text_item 1 Tag_H1 "A B C D E F G H I")
              None 0%Q H0 Hel Hex) as (Hstep & _ & _ & _ & Hp).
  split; [rewrite Hstep; vm_compute; reflexivity|].
  split; [vm_compute; reflexivity|].
  apply Hp. vm_compute. reflexivity.
Defined.

(** The item is a prefix of the run and shares its word set: rule 2 as
    the specification words it gives 1, above the prefix score; the
    matcher scores the item 0.8, the higher of the prefix score and the
    sixth it computes for rule 2. *)
Lemma prefix_score_below_word_set_score :
  match_step latin1_lower (lit "x x x x x x x x x x y x") [] 0
    (text_item 1 Tag_P "x x x x x x x x x x y") None 0
  = Ok (Continue (Some 0) 0.8%Q) /\
  exact_match latin1_lower (lit "x x x x x x x x x x y x")
    (text_item 1 Tag_P "x x x x x x x x x x y") = false /\
  prefix_rule (latin1_lower (lit "x x x x x x x x x x y x"))
    (latin1_lower (lit "x x x x x x x x x x y")) = true /\
  (word_set_ratio (latin1_lower (lit "x x x x x x x x x x y x"))
     (latin1_lower (lit "x x x x x x x x x x y")) == 1)%Q /\
  (0.8 < rule_score latin1_lower (lit "x x x x x x x x x x y x")
           (text_item 1 Tag_P "x x x x x x x x x x y"))%Q.
Proof. vm_compute. auto. Qed.

(** ** Regular-expression matches *)

Lemma greedy_star_suffix cls k s g rest :
  (forall s g rest, k s = Some (g, rest) -> exists pre, s = pre ++ rest) ->
  greedy_star cls k s = Some (g, rest) -> exists pre, s = pre ++ rest.
Proof.
  intros Hk. induction s as [|c s IH]; simpl; intros H.
  - eapply Hk; eauto.
  - destruct (cls c).
    + destruct (greedy_star cls k s) as [[g' rest']|] eqn:E.
      * inversion H; subst. destruct (IH eq_refl) as [pre ->].
        exists (c :: pre). reflexivity.
      * eapply Hk; eauto.
    + eapply Hk; eauto.
Qed.

Lemma lazy_star_suffix cls cap k s : forall g rest,
  (forall s g rest, k s = Some (g, rest) -> exists pre, s = pre ++ rest) ->
  lazy_star cls cap k s = Some (g, rest) -> exists pre, s = pre ++ rest.
Proof.
  induction s as [|c s IH]; intros g rest Hk; simpl.
  - destruct (k []) as [[g' rest']|] eqn:E; [|discriminate].
    intros H. inversion H; subst. eapply Hk; eauto.
  - destruct (k (c :: s)) as [[g' rest']|] eqn:E.
    + intros H. inversion H; subst. eapply Hk; eauto.
    + destruct (cls c); [|discriminate].
      destruct (lazy_star cls cap k s) as [[g' rest']|] eqn:E'; [|discriminate].
      intros H. inversion H; subst.
      destruct (IH _ _ Hk eq_refl) as [pre ->].
      exists (c :: pre). reflexivity.
Qed.

Lemma match_here_suffix p : forall s g rest,
  match_here p s = Some (g, rest) -> exists pre, s = pre ++ rest.
Proof.
  induction p as [|a p IH]; intros s g rest; simpl.
  - intros H. inversion H; subst. exists []. reflexivity.
  - destruct a as [c|cls|cls|cls cap].
    + destruct s as [|x s]; [discriminate|].
      destruct (char_eqb x c); [|discriminate].
      intros H. destruct (IH _ _ _ H) as [pre ->]. exists (x :: pre). reflexivity.
    + destruct s as [|x s]; [discriminate|].
      destruct (cls x); [|discriminate].
      intros H. destruct (greedy_star_suffix _ _ _ _ _ IH H) as [pre ->].
      exists (x :: pre). reflexivity.
    + apply greedy_star_suffix, IH.
    + intros H. eapply lazy_star_suffix; eauto.
Qed.

Lemma match_here_length p s g rest :
  match_here p s = Some (g, rest) -> List.length rest <= List.length s.
Proof.
  intros H. destruct (match_here_suffix _ _ _ _ H) as [pre ->].
  rewrite length_app. lia.
Qed.

Lemma ordered_weaken lo lo' hi ms : lo' <= lo -> ordered lo hi ms -> ordered lo' hi ms.
Proof.
  destruct ms as [|m ms]; simpl; [auto|].
  intros Hlo (H1 & H2 & H3 & H4). repeat split; auto. lia.
Qed.

Lemma finditer_from_ordered p s : forall pos skip,
  ordered (pos + skip) (pos + List.length s) (finditer_from p pos skip s).
Proof.
  induction s as [|c s IH]; intros pos skip.
  - destruct skip; simpl; [|exact I].
    destruct (match_here p []) as [[g rest]|] eqn:E; simpl; [|exact I].
    apply match_here_length in E. simpl in E.
    repeat split; lia.
  - destruct skip as [|k].
    + cbn [finditer_from].
      destruct (match_here p (c :: s)) as [[g rest]|] eqn:E.
      * apply match_here_length in E. cbn [List.length] in *.
        cbn [ordered m_start m_end]. repeat split; try lia.
        eapply ordered_weaken; [|replace (pos + S (List.length s))
                                   with (S pos + List.length s) by lia; apply IH].
        lia.
      * eapply ordered_weaken; [|replace (pos + List.length (c :: s))
                                   with (S pos + List.length s) by (simpl; lia); apply IH].
        lia.
    + cbn [finditer_from].
      replace (pos + S k) with (S pos + k) by lia.
      replace (pos + List.length (c :: s)) with (S pos + List.length s) by (simpl; lia).
      apply IH.
Qed.

Lemma finditer_ordered p s : ordered 0 (List.length s) (finditer p s).
Proof. apply (finditer_from_ordered p s 0 0). Qed.

Lemma greedy_star_inv cls k s r :
  greedy_star cls k s = Some r -> exists pre post, s = pre ++ post /\ k post = Some r.
Proof.
  induction s as [|c s IH]; simpl; intros H.
  - exists [], []. auto.
  - destruct (cls c); [|exists [], (c :: s); auto].
    destruct (greedy_star cls k s) as [r'|] eqn:E; [|exists [], (c :: s); auto].
    inversion H; subst. destruct (IH eq_refl) as (pre & post & -> & Hk).
    exists (c :: pre), post. auto.
Qed.

Lemma lazy_star_inv cls cap k s : forall g rest,
  lazy_star cls cap k s = Some (g, rest) ->
  exists pre post g', s = pre ++ post /\ k post = Some (g', rest).
Proof.
  induction s as [|c s IH]; intros g rest; simpl.
  - destruct (k []) as [[g' rest']|] eqn:E; [|discriminate].
    intros H. inversion H; subst. exists [], [], g'. auto.
  - destruct (k (c :: s)) as [[g' rest']|] eqn:E.
    + intros H. inversion H; subst. exists [], (c :: s), g'. auto.
    + destruct (cls c); [|discriminate].
      destruct (lazy_star cls cap k s) as [[g' rest']|] eqn:E'; [|discriminate].
      intros H. inversion H; subst.
      destruct (IH _ _ eq_refl) as (pre & post & g'' & -> & Hk).
      exists (c :: pre), post, g''. auto.
Qed.

(** A greedy quantifier takes characters of its class only. *)
Lemma greedy_star_class cls k s r :
  greedy_star cls k s = Some r ->
  exists pre post, s = pre ++ post /\ k post = Some r /\ forallb cls pre = true.
Proof.
  induction s as [|c s IH]; simpl; intros H.
  - exists [], []. auto.
  - destruct (cls c) eqn:Hc; [|exists [], (c :: s); auto].
    destruct (greedy_star cls k s) as [r'|] eqn:E; [|exists [], (c :: s); auto].
    inversion H; subst. destruct (IH eq_refl) as (pre & post & -> & Hk & Hpre).
    exists (c :: pre), post. simpl. rewrite Hc, Hpre. auto.
Qed.

(** A lazy quantifier stops at the first place where the rest of the
    pattern matches. *)
Lemma lazy_star_first cls cap k s : forall g rest,
  lazy_star cls cap k s = Some (g, rest) ->
  exists pre post g',
    s = pre ++ post /\ k post = Some (g', rest) /\
    forall a b, pre = a ++ b -> b <> [] -> k (b ++ post) = None.
Proof.
  induction s as [|c s IH]; intros g rest; simpl.
  - destruct (k []) as [[g' rest']|] eqn:E; [|discriminate].
    intros H. inversion H; subst. exists [], [], g'. repeat split; auto.
    intros a b Hab Hb. symmetry in Hab. apply app_eq_nil in Hab. tauto.
  - destruct (k (c :: s)) as [[g' rest']|] eqn:E.
    + intros H. inversion H; subst. exists [], (c :: s), g'. repeat split; auto.
      intros a b Hab Hb. symmetry in Hab. apply app_eq_nil in Hab. tauto.
    + destruct (cls c); [|discriminate].
      destruct (lazy_star cls cap k s) as [[g' rest']|] eqn:E'; [|discriminate].
      intros H. inversion H; subst.
      destruct (IH _ _ eq_refl) as (pre & post & g'' & -> & Hk & Hmin).
      exists (c :: pre), post, g''. repeat split; auto.
      intros a b Hab Hb. destruct a as [|x a].
      * simpl in Hab. subst b. exact E.
      * simpl in Hab. inversion Hab; subst. apply (Hmin a b); [reflexivity | exact Hb].
Qed.

Lemma startswith_inv p : forall s, startswith s p = true -> exists c, s = p ++ c.
Proof.
  induction p as [|x p IH]; intros s H.
  - exists s. reflexivity.
  - destruct s as [|y s]; [discriminate|]. simpl in H.
    apply andb_true_iff in H. destruct H as [Hy Hs].
    apply N.eqb_eq in Hy. subst y. destruct (IH s Hs) as [c ->]. exists c. reflexivity.
Qed.

Lemma contains_inv p s : contains p s = true -> exists a c, s = a ++ p ++ c.
Proof.
  induction s as [|x s IH]; cbn [contains].
  - rewrite orb_false_r. intros H. apply startswith_inv in H. destruct H as [c Hc].
    exists [], c. exact Hc.
  - intros H. apply orb_true_iff in H. destruct H as [H|H].
    + apply startswith_inv in H. destruct H as [c Hc]. exists [], c. exact Hc.
    + destruct (IH H) as (a & c & ->). exists (x :: a), c. reflexivity.
Qed.

(** A match of the BT...ET pattern is [BT], whitespace, some text, [ET]. *)
Lemma bt_et_match_inv t g rest :
  match_here bt_et_pattern t = Some (g, rest) ->
  exists w b, isspace w = true /\ t = lit "BT" ++ w :: b ++ lit "ET" ++ rest.
Proof.
  change bt_et_pattern
    with [Lit 66%N; Lit 84%N; Plus isspace; LazyStar any_char false; Lit 69%N; Lit 84%N].
  cbn [match_here].
  destruct t as [|x1 t]; [discriminate|].
  destruct (char_eqb x1 66%N) eqn:E1; [|discriminate]. apply N.eqb_eq in E1. subst x1.
  destruct t as [|x2 t]; [discriminate|].
  destruct (char_eqb x2 84%N) eqn:E2; [|discriminate]. apply N.eqb_eq in E2. subst x2.
  destruct t as [|w t]; [discriminate|].
  destruct (isspace w) eqn:Ew; [|discriminate].
  intros H. apply greedy_star_inv in H. destruct H as (pre1 & post1 & -> & H).
  apply lazy_star_inv in H. destruct H as (pre2 & post2 & g' & -> & H).
  destruct post2 as [|y1 post2]; [discriminate|].
  destruct (char_eqb y1 69%N) eqn:E3; [|discriminate]. apply N.eqb_eq in E3. subst y1.
  destruct post2 as [|y2 post2]; [discriminate|].
  destruct (char_eqb y2 84%N) eqn:E4; [|discriminate]. apply N.eqb_eq in E4. subst y2.
  inversion H; subst.
  exists w, (pre1 ++ pre2). split; [exact Ew|].
  change (lit "BT") with [66%N; 84%N]. change (lit "ET") with [69%N; 84%N].
  simpl. now rewrite <- app_assoc.
Qed.

(** Every match reported by [finditer] is a match of the pattern at some
    position of the subject. *)
Lemma finditer_from_match p s : forall pos skip m,
  In m (finditer_from p pos skip s) ->
  exists pre t g rest, s = pre ++ t /\ match_here p t = Some (g, rest).
Proof.
  induction s as [|c s IH]; intros pos skip m.
  - destruct skip; simpl; [|tauto].
    destruct (match_here p []) as [[g rest]|] eqn:E; simpl; [|tauto].
    intros _. exists [], [], g, rest. auto.
  - assert (Hshift : forall pos' skip',
              In m (finditer_from p pos' skip' s) ->
              exists pre t g rest, c :: s = pre ++ t /\ match_here p t = Some (g, rest)).
    { intros pos' skip' H. destruct (IH _ _ _ H) as (pre & t & g & rest & -> & Hm).
      exists (c :: pre), t, g, rest. auto. }
    destruct skip as [|k]; cbn [finditer_from]; [|apply Hshift].
    destruct (match_here p (c :: s)) as [[g rest]|] eqn:E; [|apply Hshift].
    intros [_|H]; [|eapply Hshift; eauto].
    exists [], (c :: s), g, rest. auto.
Qed.

Lemma finditer_bt_et_region s :
  finditer bt_et_pattern s <> [] -> has_bt_et s.
Proof.
  destruct (finditer bt_et_pattern s) as [|m ms] eqn:E; [congruence|]. intros _.
  destruct (finditer_from_match bt_et_pattern s 0 0 m) as (pre & t & g & rest & -> & Hm).
  { unfold finditer in E. rewrite E. now left. }
  destruct (bt_et_match_inv _ _ _ Hm) as (w & b & Hw & ->).
  exists pre, w, b, rest. auto.
Qed.

Lemma startswith_app p s : startswith (p ++ s) p = true.
Proof.
  induction p as [|x p IH]; simpl; [destruct s; reflexivity|].
  unfold char_eqb. now rewrite N.eqb_refl.
Qed.

Lemma contains_unfold p s :
  contains p s = startswith s p || match s with [] => false | _ :: s' => contains p s' end.
Proof. destruct s; reflexivity. Qed.

Lemma contains_app p a c : contains p (a ++ p ++ c) = true.
Proof.
  induction a as [|x a IH].
  - simpl. now rewrite contains_unfold, startswith_app.
  - simpl. rewrite IH. apply orb_true_r.
Qed.

Lemma scan_bt_et_unfold s :
  scan_bt_et s =
  (startswith s (lit "BT") &&
   match skipn 2 s with
   | w :: t => isspace w && contains (lit "ET") t
   | [] => false
   end) || match s with [] => false | _ :: s' => scan_bt_et s' end.
Proof. destruct s; reflexivity. Qed.

Lemma has_bt_et_scan s : has_bt_et s -> scan_bt_et s = true.
Proof.
  intros (a & w & b & c & Hw & ->).
  induction a as [|x a IH]; rewrite scan_bt_et_unfold.
  - rewrite app_nil_l, startswith_app.
    change (lit "BT") with [66%N; 84%N]. cbn [app skipn].
    rewrite Hw, contains_app. reflexivity.
  - cbn [app]. rewrite IH. apply orb_true_r.
Qed.

(** ** The codec *)

Lemma latin1_encode_ok s :
  Forall latin1_char s ->
  exists bs, latin1_encode s = Ok bs /\ map Byte.to_N bs = s.
Proof.
  induction 1 as [|c s Hc _ (bs & Hbs & Hmap)]; simpl.
  - exists []. auto.
  - destruct (Byte.of_N c) as [b|] eqn:E.
    + rewrite Hbs. simpl. exists (b :: bs). split; [reflexivity|].
      simpl. now rewrite (Byte.to_of_N _ E), Hmap.
    + apply Byte.of_N_None_iff in E. unfold latin1_char in Hc. lia.
Qed.

Lemma latin1_decode_chars bs : Forall latin1_char (map Byte.to_N bs).
Proof.
  apply Forall_map, Forall_forall. intros b _.
  pose proof (Byte.to_N_bounded b). unfold latin1_char. lia.
Qed.

Lemma Forall_firstn {A} (R : A -> Prop) n : forall l, Forall R l -> Forall R (firstn n l).
Proof.
  induction n as [|n IH]; intros [|x l] H; simpl; auto.
  inversion H; subst. constructor; auto.
Qed.

Lemma Forall_skipn {A} (R : A -> Prop) n : forall l, Forall R l -> Forall R (skipn n l).
Proof.
  induction n as [|n IH]; intros [|x l] H; simpl; auto.
  inversion H; subst. auto.
Qed.

Lemma slice_chars s a b : Forall latin1_char s -> Forall latin1_char (slice s a b).
Proof. intros H. unfold slice. now apply Forall_firstn, Forall_skipn. Qed.

Lemma digits_chars u : Forall latin1_char (digits u).
Proof.
  induction u; simpl; constructor; auto; reflexivity.
Qed.

Lemma bdc_chars t k : Forall latin1_char (bdc t k).
Proof.
  unfold bdc. repeat (apply Forall_app; split).
  - repeat constructor.
  - destruct t; repeat constructor.
  - repeat constructor.
  - apply digits_chars.
  - repeat constructor.
  - repeat constructor.
Qed.

Lemma emc_chars : Forall latin1_char emc.
Proof. repeat constructor. Qed.

Lemma skipn_slice s a b : a <= b -> skipn a s = slice s a b ++ skipn b s.
Proof.
  intros H. unfold slice.
  replace (skipn b s) with (skipn (b - a) (skipn a s)).
  - symmetry. apply firstn_skipn.
  - rewrite skipn_skipn. f_equal. lia.
Qed.

(** ** The rewriter *)

Lemma content_parts_spec s items : forall tbm last_end,
  Forall latin1_char s ->
  ordered last_end (List.length s) (map fst tbm) ->
  (forall i, In i (wrapped_mcids tbm) -> exists it, nth_error items i = Some it) ->
  exists parts segs tail,
    content_parts s items tbm last_end = Ok parts /\
    skipn last_end s = original segs tail /\
    List.concat parts = rewritten segs tail /\
    map seg_run segs = map (group0 s) (map fst tbm) /\
    map (fun sg => option_map snd (seg_mark sg)) segs = map snd tbm /\
    Forall (mark_ok items) segs /\
    Forall latin1_char (List.concat parts).
Proof.
  induction tbm as [|[m idx] tbm IH]; intros last_end Hs Hord Hidx.
  - exists [skipn last_end s], [], (skipn last_end s). simpl.
    rewrite app_nil_r. repeat split; auto. now apply Forall_skipn.
  - simpl in Hord. destruct Hord as (H1 & H2 & H3 & Hord).
    assert (Hrest : forall i, In i (wrapped_mcids tbm) ->
                      exists it, nth_error items i = Some it).
    { intros i Hi. apply Hidx. unfold wrapped_mcids in *. simpl.
      destruct idx; [now right | exact Hi]. }
    destruct (IH (m_end m) Hs Hord Hrest)
      as (parts & segs & tail & Hparts & Horig & Hnew & Hruns & Hmarks & Hok & Hchars).
    assert (Hsplit : skipn last_end s
                     = slice s last_end (m_start m) ++ group0 s m ++ skipn (m_end m) s).
    { rewrite (skipn_slice s last_end (m_start m)) by exact H1.
      rewrite (skipn_slice s (m_start m) (m_end m)) by exact H2. reflexivity. }
    cbn [content_parts]. destruct idx as [i|].
    + destruct (Hidx i) as (it & Hit).
      { unfold wrapped_mcids. simpl. now left. }
      rewrite Hit, Hparts. cbn [bind].
      eexists _, ({| seg_before := slice s last_end (m_start m);
                     seg_run := group0 s m;
                     seg_mark := Some (item_type it, i) |} :: segs), tail.
      split; [reflexivity|].
      unfold original, rewritten in *. cbn [map List.concat seg_before seg_run seg_mark wrap].
      split; [rewrite Hsplit, Horig; now rewrite <- !app_assoc|].
      split; [rewrite Hnew; now rewrite <- !app_assoc|].
      split; [simpl; now rewrite Hruns|].
      split; [simpl; now rewrite Hmarks|].
      split; [constructor; [exists it; auto | exact Hok]|].
      apply Forall_app; split; [apply slice_chars, Hs|].
      apply Forall_app; split; [apply bdc_chars|].
      apply Forall_app; split; [apply slice_chars, Hs|].
      apply Forall_app; split; [apply emc_chars | exact Hchars].
    + rewrite Hparts. cbn [bind].
      eexists _, ({| seg_before := slice s last_end (m_start m);
                     seg_run := group0 s m;
                     seg_mark := None |} :: segs), tail.
      split; [reflexivity|].
      unfold original, rewritten in *. cbn [map List.concat seg_before seg_run seg_mark wrap].
      split; [rewrite Hsplit, Horig; now rewrite <- !app_assoc|].
      split; [rewrite Hnew; now rewrite <- !app_assoc|].
      split; [simpl; now rewrite Hruns|].
      split; [simpl; now rewrite Hmarks|].
      split; [constructor; [exact I | exact Hok]|].
      apply Forall_app; split; [apply slice_chars, Hs|].
      apply Forall_app; split; [apply slice_chars, Hs | exact Hchars].
Qed.

Lemma mark_in_wrapped segs : forall tbm sg t k,
  map (fun sg => option_map snd (seg_mark sg)) segs = map snd tbm ->
  In sg segs -> seg_mark sg = Some (t, k) -> In k (wrapped_mcids tbm).
Proof.
  unfold wrapped_mcids.
  induction segs as [|sg0 segs IH]; intros [|[m i] tbm] sg t k H Hin Hmark;
    try discriminate; [exact (False_ind _ Hin)|].
  simpl in H. inversion H as [[Hi Hrest]]. subst i. simpl.
  destruct Hin as [->|Hin].
  - rewrite Hmark. simpl. now left.
  - destruct (option_map snd (seg_mark sg0)); simpl; [right|]; eapply IH; eauto.
Qed.

(** The marks of the segments are the matches of the first loop. *)
Lemma marks_wrapped segs : forall tbm,
  map (fun sg => option_map snd (seg_mark sg)) segs = map snd tbm ->
  filter_map (fun sg => option_map snd (seg_mark sg)) segs = wrapped_mcids tbm.
Proof.
  unfold wrapped_mcids.
  induction segs as [|sg segs IH]; intros [|[m i] tbm] H; try discriminate.
  - reflexivity.
  - simpl in H. inversion H as [[Hi Hrest]]. simpl. rewrite Hi.
    destruct i; simpl; [f_equal|]; auto.
Qed.

(** *** Begin operators can be read back *)

Lemma read_digits_digits u rest :
  read_digits (digits u ++ 62%N :: rest) = (u, 62%N :: rest).
Proof.
  induction u; cbn [digits app read_digits]; try (rewrite IHu; reflexivity).
  destruct (read_digits rest). reflexivity.
Qed.

Lemma read_bdc_bdc tag_type mcid : read_bdc (bdc tag_type mcid) = Some (tag_type, mcid).
Proof.
  unfold bdc, read_bdc, str_of_nat.
  change (lit ">> BDC" ++ [10%N]) with (62%N :: lit "> BDC" ++ [10%N]).
  destruct tag_type; cbn [tag_name]; simpl;
    rewrite read_digits_digits; simpl; now rewrite Unsigned.of_to.
Qed.

(** The rewritten stream, operator by operator. *)
Lemma rewritten_operators segs tail :
  rewritten segs tail
  = List.concat (map (fun sg => seg_before sg ++ begin_operator sg ++ seg_run sg
                                ++ end_operator sg) segs) ++ tail.
Proof.
  unfold rewritten. f_equal. f_equal. apply map_ext. intros sg.
  unfold wrap, begin_operator, end_operator.
  destruct (seg_mark sg) as [[t k]|]; [reflexivity|]. now rewrite app_nil_r.
Qed.

Lemma stream_marks_marks segs : stream_marks segs = filter_map seg_mark segs.
Proof.
  unfold stream_marks, begin_operator.
  induction segs as [|sg segs IH]; simpl; [reflexivity|].
  destruct (seg_mark sg) as [[t k]|]; [rewrite read_bdc_bdc|]; simpl; now rewrite IH.
Qed.

Lemma stream_mcids_marks segs :
  stream_mcids segs = filter_map (fun sg => option_map snd (seg_mark sg)) segs.
Proof.
  unfold stream_mcids. rewrite stream_marks_marks.
  induction segs as [|sg segs IH]; simpl; [reflexivity|].
  destruct (seg_mark sg) as [[t k]|]; simpl; now rewrite IH.
Qed.

Lemma stream_marks_in segs t k :
  In (t, k) (stream_marks segs) -> exists sg, In sg segs /\ seg_mark sg = Some (t, k).
Proof.
  rewrite stream_marks_marks.
  induction segs as [|sg segs IH]; simpl; [tauto|].
  destruct (seg_mark sg) as [[t' k']|] eqn:E.
  - intros [H|H].
    + inversion H; subst. exists sg. auto.
    + destruct (IH H) as (sg' & Hin & Hm). exists sg'. auto.
  - intros H. destruct (IH H) as (sg' & Hin & Hm). exists sg'. auto.
Qed.

Section RewriterProperties.

Variable lower : str -> str.
Hypothesis lower_has_word : forall s, has_word (lower s) = has_word s.

(** The first loop never raises; the items it assigns are pairwise
    distinct, were not used before, and are non-table items of the page
    with text. *)
Lemma match_blocks_spec s items : forall matches used,
  exists tbm,
    match_blocks lower s matches items used = Ok tbm /\
    map fst tbm = matches /\
    NoDup (wrapped_mcids tbm) /\
    (forall i, In i (wrapped_mcids tbm) ->
       ~ In i used /\
       exists it, nth_error items i = Some it /\
                  item_type it <> Tag_Table /\
                  strip (get_text it) <> []).
Proof.
  induction matches as [|m matches IH]; intros used.
  - exists []. simpl. repeat split; auto using NoDup_nil; tauto.
  - cbn [match_blocks].
    destruct (find_best_match_ok lower lower_has_word
                (extract_text_from_bt_et (group0 s m)) items used)
      as (r & Hr & Hsome).
    rewrite Hr. cbn [bind]. destruct r as [i|].
    + destruct (Hsome i eq_refl) as (it & Hit & Hel).
      destruct (IH (i :: used)) as (tbm & Htbm & Hfst & Hnd & Hin).
      rewrite Htbm. cbn [bind]. exists ((m, Some i) :: tbm).
      split; [reflexivity|]. split; [simpl; now rewrite Hfst|].
      unfold wrapped_mcids in *. cbn [filter_map snd]. split.
      * constructor; [|exact Hnd].
        intros Hi. apply Hin in Hi. destruct Hi as [Hi _]. apply Hi. now left.
      * intros j [<-|Hj].
        -- unfold eligible in Hel.
           apply andb_true_iff in Hel. destruct Hel as [Hel Htext].
           apply andb_true_iff in Hel. destruct Hel as [Hused Htag].
           split.
           ++ intros Hi. apply negb_true_iff in Hused.
              assert (existsb (Nat.eqb i) used = true); [|congruence].
              apply existsb_exists. exists i. split; [exact Hi | apply Nat.eqb_refl].
           ++ exists it. split; [exact Hit|]. split.
              ** intros E. rewrite E in Htag. discriminate.
              ** intros E. rewrite E in Htext. discriminate.
        -- destruct (Hin j Hj) as [Hnot Hex]. split; [|exact Hex].
           intros Hu. apply Hnot. now right.
    + destruct (IH used) as (tbm & Htbm & Hfst & Hnd & Hin).
      rewrite Htbm. cbn [bind]. exists ((m, None) :: tbm).
      split; [reflexivity|]. split; [simpl; now rewrite Hfst|].
      unfold wrapped_mcids in *. cbn [filter_map snd]. auto.
Qed.

(** The rewriter never raises: the two loops and the re-encoding
    succeed, and the result decodes to the concatenated parts. *)
Lemma rewrite_parts content_bytes items :
  exists tbm parts out,
    match_blocks lower (map Byte.to_N content_bytes)
      (finditer bt_et_pattern (map Byte.to_N content_bytes)) items [] = Ok tbm /\
    map fst tbm = finditer bt_et_pattern (map Byte.to_N content_bytes) /\
    (forall i, In i (wrapped_mcids tbm) -> exists it, nth_error items i = Some it) /\
    content_parts (map Byte.to_N content_bytes) items tbm 0 = Ok parts /\
    insert_marked_content_by_bbox lower content_bytes items = Ok out /\
    map Byte.to_N out = List.concat parts.
Proof.
  unfold insert_marked_content_by_bbox, insert_marked_content_with.
  set (s := map Byte.to_N content_bytes).
  change (latin1_decode content_bytes) with (Some s). cbv iota beta.
  destruct (match_blocks_spec s items (finditer bt_et_pattern s) [])
    as (tbm & Htbm & Hfst & _ & Hin).
  assert (Hidx : forall i, In i (wrapped_mcids tbm) ->
                   exists it, nth_error items i = Some it).
  { intros i Hi. destruct (Hin i Hi) as (_ & it & Hit & _). eauto. }
  destruct (content_parts_spec s items tbm 0) as
    (parts & segs & tail & Hparts & _ & _ & _ & _ & _ & Hchars);
    [apply latin1_decode_chars | rewrite Hfst; apply finditer_ordered | exact Hidx |].
  destruct (finditer bt_et_pattern s) as [|m0 ms] eqn:Hfind.
  - exists tbm, parts, content_bytes. repeat split; auto.
    destruct tbm; [|discriminate]. simpl in Hparts. inversion Hparts.
    simpl. now rewrite app_nil_r.
  - rewrite Htbm. cbn [bind]. rewrite Hparts. cbn [bind].
    destruct (latin1_encode_ok _ Hchars) as (out & Hout & Hmap).
    exists tbm, parts, out. repeat split; auto.
Qed.

(** C8.  The content stream is the concatenation of segments (the bytes
    before a text run, then the run) and a tail; the rewriter returns the
    same segments and tail in the same order, each matched run between
    the inserted begin and end operators, each unmatched run as it is.
    The runs are the BT...ET blocks of the stream, and the runs that are
    marked are those the matching loop assigned an item to, marked with
    the index and the tag of that item. *)
Theorem rewrite_preserves_content content_bytes items :
  exists content_str segs tail out text_block_matches,
    latin1_decode content_bytes = Some content_str /\
    content_str = original segs tail /\
    insert_marked_content_by_bbox lower content_bytes items = Ok out /\
    latin1_decode out = Some (rewritten segs tail) /\
    map seg_run segs = map (group0 content_str) (finditer bt_et_pattern content_str) /\
    match_blocks lower content_str (finditer bt_et_pattern content_str) items []
    = Ok text_block_matches /\
    map (fun sg => option_map snd (seg_mark sg)) segs = map snd text_block_matches /\
    Forall (mark_ok items) segs.
Proof.
  destruct (rewrite_parts content_bytes items)
    as (tbm & parts & out & Htbm & Hfst & Hidx & Hparts & Hout & Hmap).
  set (s := map Byte.to_N content_bytes) in *.
  destruct (content_parts_spec s items tbm 0) as
    (parts' & segs & tail & Hparts' & Horig & Hnew & Hruns & Hmarks & Hok & _);
    [apply latin1_decode_chars | rewrite Hfst; apply finditer_ordered | exact Hidx |].
  assert (parts' = parts) by congruence. subst parts'.
  exists s, segs, tail, out, tbm.
  split; [reflexivity|]. split; [exact Horig|]. split; [exact Hout|].
  split; [unfold latin1_decode; now rewrite Hmap, Hnew|].
  split; [now rewrite Hruns, Hfst|]. auto.
Qed.

(** The segments of a rewrite, with what the two loops guarantee about
    the marks. *)
Lemma rewrite_marks content_bytes items :
  exists segs tail out,
    map Byte.to_N content_bytes = original segs tail /\
    insert_marked_content_by_bbox lower content_bytes items = Ok out /\
    map Byte.to_N out = rewritten segs tail /\
    map seg_run segs
    = map (group0 (map Byte.to_N content_bytes))
          (finditer bt_et_pattern (map Byte.to_N content_bytes)) /\
    NoDup (filter_map (fun sg => option_map snd (seg_mark sg)) segs) /\
    Forall (fun sg => forall t k, seg_mark sg = Some (t, k) ->
              exists it, nth_error items k = Some it /\ item_type it = t /\
                         item_type it <> Tag_Table /\ strip (get_text it) <> []) segs.
Proof.
  destruct (rewrite_parts content_bytes items)
    as (tbm & parts & out & Htbm & Hfst & Hidx & Hparts & Hout & Hmap).
  set (s := map Byte.to_N content_bytes) in *.
  destruct (match_blocks_spec s items (finditer bt_et_pattern s) [])
    as (tbm' & Htbm' & _ & Hnd & Hin).
  assert (tbm' = tbm) by congruence. subst tbm'.
  destruct (content_parts_spec s items tbm 0) as
    (parts' & segs & tail & Hparts' & Horig & Hnew & Hruns & Hmarks & Hok & _);
    [apply latin1_decode_chars | rewrite Hfst; apply finditer_ordered | exact Hidx |].
  assert (parts' = parts) by congruence. subst parts'.
  exists segs, tail, out.
  split; [exact Horig|]. split; [exact Hout|]. split; [now rewrite Hmap|].
  split; [now rewrite Hruns, Hfst|]. split.
  - now rewrite (marks_wrapped segs tbm Hmarks).
  - apply Forall_forall. intros sg Hsg t k Hmark.
    pose proof (mark_in_wrapped segs tbm sg t k Hmarks Hsg Hmark) as Hk.
    destruct (Hin k Hk) as (_ & it & Hit & Htag & Htext).
    rewrite Forall_forall in Hok. specialize (Hok sg Hsg).
    unfold mark_ok in Hok. rewrite Hmark in Hok.
    destruct Hok as (it' & Hit' & Ht).
    assert (it' = it) by congruence. subst it'. eauto.
Qed.

(** C10.  On a stream with no BT...ET region the rewriter returns its
    input. *)
Theorem rewrite_without_text content_bytes content_str items :
  latin1_decode content_bytes = Some content_str ->
  ~ has_bt_et content_str ->
  insert_marked_content_by_bbox lower content_bytes items = Ok content_bytes.
Proof.
  intros Hdec Hno.
  unfold insert_marked_content_by_bbox, insert_marked_content_with. rewrite Hdec.
  destruct (finditer bt_et_pattern content_str) eqn:E; [reflexivity|].
  exfalso. apply Hno, finditer_bt_et_region. congruence.
Qed.

End RewriterProperties.

(** ** The structure tree *)




Section BuilderProperties.

Variable creates : StructElem -> bool.





(** *** When every element is made *)

Hypothesis all_created : forall e, creates e = true.






End BuilderProperties.



Lemma insert_by_key_Forall (R : Q * item -> Prop) x l :
  R x -> Forall R l -> Forall R (insert_by_key x l).
Proof.
  intros Hx. induction 1 as [|y l Hy Hl IH]; simpl.
  - constructor; auto.
  - destruct (Qgtb (fst y) (fst x)); constructor; auto.
Qed.

Lemma sort_by_key_Forall (R : Q * item -> Prop) l :
  Forall R l -> Forall R (sort_by_key l).
Proof.
  unfold sort_by_key. assert (Hacc : Forall R []) by constructor.
  revert Hacc. generalize (@nil (Q * item)).
  induction l as [|x l IH]; intros acc Hacc H; simpl; [exact Hacc|].
  inversion H; subst. apply IH; [apply insert_by_key_Forall|]; auto.
Qed.

Lemma tag_of_styling_not_table m bold : tag_of_styling m bold <> Tag_Table.
Proof.
  unfold tag_of_styling.
  destruct (Qgtb m 14); [discriminate|]. destruct (Qgtb m 12 || bold); discriminate.
Qed.

Lemma filter_map_Forall {A B} (f : A -> option B) (R : B -> Prop) l :
  (forall a b, f a = Some b -> R b) -> Forall R (filter_map f l).
Proof.
  intros H. induction l as [|a l IH]; simpl; [constructor|].
  destruct (f a) eqn:E; [constructor; eauto | exact IH].
Qed.

(** ** A page: its stream and its structure elements *)

Section PageProperties.

Variable lower : str -> str.
Hypothesis lower_has_word : forall s, has_word (lower s) = has_word s.
Variable creates : StructElem -> bool.

(** What the loop body does for a page with a content stream: the new
    stream is the old one with begin and end operators around the
    matched runs, and the section holds the elements of the builder. *)
Lemma tag_page_result page_idx page c items :
  Contents page = Some c ->
  exists out segs tail,
    tag_page lower latin1_decode creates page_idx page items
    = Ok ({| Contents := Some (Single out); StructParents := Some page_idx |},
          Some (Node Sect (Some (lit "Page-" ++ str_of_nat (page_idx + 1)))
                     (fst (build_elements creates page_idx items 0)))) /\
    latin1_decode (read_contents c) = Some (original segs tail) /\
    latin1_decode out = Some (rewritten segs tail) /\
    map seg_run segs
    = map (group0 (original segs tail)) (finditer bt_et_pattern (original segs tail)) /\
    NoDup (stream_mcids segs) /\
    (forall t i, In (t, i) (stream_marks segs) ->
       exists it, nth_error items i = Some it /\ item_type it = t /\ t <> Tag_Table).
Proof.
  intros Hc. unfold tag_page. rewrite Hc.
  destruct (rewrite_marks lower lower_has_word (read_contents c) items)
    as (segs & tail & out & Horig & Hout & Hnew & Hruns & Hnd & Hmarks).
  unfold insert_marked_content_by_bbox in Hout. rewrite Hout. cbn [bind].
  exists out, segs, tail. unfold latin1_decode. rewrite <- Horig, Hnew.
  split; [reflexivity|]. split; [reflexivity|]. split; [reflexivity|].
  split; [exact Hruns|]. split; [now rewrite stream_mcids_marks|].
  intros t i Hin. destruct (stream_marks_in segs t i Hin) as (sg & Hsg & Hmark).
  rewrite Forall_forall in Hmarks.
  destruct (Hmarks sg Hsg t i Hmark) as (it & Hit & Ht & Htag & _).
  exists it. subst t. auto.
Qed.



(** The whole document: no page makes [apply_tagging] raise, and every
    page is returned. *)
Lemma tag_pages_ok items : forall pages page_idx,
  exists r,
    tag_pages lower latin1_decode creates page_idx pages items = Ok r /\
    List.length (fst r) = List.length pages.
Proof.
  induction pages as [|page pages IH]; intros page_idx.
  - exists ([], []). auto.
  - cbn [tag_pages]. destruct (IH (S page_idx)) as (r & Hr & Hlen).
    destruct (items_of_page items page_idx) as [|it its] eqn:E.
    + rewrite Hr. cbn [bind]. eexists. split; [reflexivity|]. simpl. now rewrite Hlen.
    + assert (Hp : exists p,
                tag_page lower latin1_decode creates page_idx page (it :: its) = Ok p).
      { destruct (Contents page) as [c|] eqn:Hc.
        - destruct (tag_page_result page_idx page c (it :: its) Hc) as (out & ? & ? & Hp & _).
          eauto.
        - unfold tag_page. rewrite Hc. eauto. }
      destruct Hp as (p & Hp). rewrite Hp, Hr. cbn [bind].
      eexists. split; [reflexivity|]. simpl. now rewrite Hlen.
Qed.

End PageProperties.

Lemma latin1_decode_total content_bytes : latin1_decode content_bytes <> None.
Proof. discriminate. Qed.

(** ** The statements on concrete pages *)

Lemma rewrite_preserves_content_witness :
  exists content_str segs tail out text_block_matches,
    latin1_decode (bytes_of "q BT (Hello) Tj ET Q BT (Other) Tj ET") = Some content_str /\
    content_str = original segs tail /\
    insert_marked_content_by_bbox latin1_lower
      (bytes_of "q BT (Hello) Tj ET Q BT (Other) Tj ET") [text_item 1 Tag_P "Hello"]
    = Ok out /\
    latin1_decode out = Some (rewritten segs tail) /\
    map seg_run segs = map (group0 content_str) (finditer bt_et_pattern content_str) /\
    match_blocks latin1_lower content_str (finditer bt_et_pattern content_str)
      [text_item 1 Tag_P "Hello"] [] = Ok text_block_matches /\
    map (fun sg => option_map snd (seg_mark sg)) segs = map snd text_block_matches /\
    Forall (mark_ok [text_item 1 Tag_P "Hello"]) segs.
Proof.
  exact (rewrite_preserves_content latin1_lower latin1_lower_has_word
           (bytes_of "q BT (Hello) Tj ET Q BT (Other) Tj ET")
           [text_item 1 Tag_P "Hello"]).
Defined.

Example rewrite_two_blocks :
  insert_marked_content_by_bbox latin1_lower
    (bytes_of "q BT (Hello) Tj ET Q BT (Other) Tj ET") [text_item 1 Tag_P "Hello"]
  = Ok (bytes_of "q /P <</MCID 0>> BDC
BT (Hello) Tj ET
EMC Q BT (Other) Tj ET").
Proof. vm_compute. reflexivity. Qed.

Lemma rewrite_without_text_witness :
  insert_marked_content_by_bbox latin1_lower (bytes_of "q 1 0 0 1 72 700 cm BT Q")
    [text_item 1 Tag_P "Hello"]
  = Ok (bytes_of "q 1 0 0 1 72 700 cm BT Q").
Proof.
  apply (rewrite_without_text latin1_lower (bytes_of "q 1 0 0 1 72 700 cm BT Q")
           (lit "q 1 0 0 1 72 700 cm BT Q")).
  - reflexivity.
  - intros H. apply has_bt_et_scan in H. vm_compute in H. discriminate.
Defined.



(** The page of the statement above: the second item is matched to the
    first run, so MCID 1 is written into the stream; the elements of the
    two items refer to MCIDs 0 and 1. *)
Example page_mcids_example :
  tag_page latin1_lower latin1_decode always_created 0
    (page_of "BT (Hello) Tj ET BT (Other) Tj ET")
    [text_item 1 Tag_H1 "Title"; text_item 1 Tag_P "Hello"]
  = Ok ({| Contents := Some (Single (bytes_of "/P <</MCID 1>> BDC
BT (Hello) Tj ET
EMC BT (Other) Tj ET"));
           StructParents := Some 0 |},
        Some (Node Sect (Some (lit "Page-1"))
                [Leaf (Tagged Tag_H1) (lit "Title") 0 0;
                 Leaf (Tagged Tag_P) (lit "Hello") 1 0]))
  /\ stream_marks [ {| seg_before := []; seg_run := lit "BT (Hello) Tj ET";
                       seg_mark := Some (Tag_P, 1) |};
                    {| seg_before := lit " "; seg_run := lit "BT (Other) Tj ET";
                       seg_mark := None |} ] = [(Tag_P, 1)].
Proof. vm_compute. auto. Qed.



(** An element that cannot be made.  The first item's text is a lone
    surrogate, which the second test refuses: the item gets no element
    and the counter stays, so the element of the second item refers to
    MCID 0, while the rewriter, which numbers by position, writes MCID 1
    for that item into the stream. *)
Example skipped_element_example :
  tag_page latin1_lower latin1_decode encodable_title 0 (page_of "BT (Hello) Tj ET")
    [surrogate_item 1; text_item 1 Tag_P "Hello"]
  = Ok ({| Contents := Some (Single (bytes_of "/P <</MCID 1>> BDC
BT (Hello) Tj ET
EMC"));
           StructParents := Some 0 |},
        Some (Node Sect (Some (lit "Page-1")) [Leaf (Tagged Tag_P) (lit "Hello") 0 0]))
  /\ stream_mcids [ {| seg_before := []; seg_run := lit "BT (Hello) Tj ET";
                       seg_mark := Some (Tag_P, 1) |} ] = [1]
  /\ bytes_of "/P <</MCID 1>> BDC
BT (Hello) Tj ET
EMC"
     = value_of [] (latin1_encode
                      (rewritten [ {| seg_before := []; seg_run := lit "BT (Hello) Tj ET";
                                      seg_mark := Some (Tag_P, 1) |} ] [])).
Proof. vm_compute. auto. Qed.

(** A table before a text item.  The two cells take MCIDs 0 and 1, the
    element of the text item refers to MCID 2, and the rewriter writes
    MCID 1, the position of the item, into the stream. *)
Example table_shifts_counter_example :
  tag_page latin1_lower latin1_decode always_created 0 (page_of "BT (Hello) Tj ET")
    [table_item_of 1 [[lit "a"]; [lit "b"]]; text_item 1 Tag_P "Hello"]
  = Ok ({| Contents := Some (Single (bytes_of "/P <</MCID 1>> BDC
BT (Hello) Tj ET
EMC"));
           StructParents := Some 0 |},
        Some (Node Sect (Some (lit "Page-1"))
                [Node (Tagged Tag_Table) None
                   [Node TR None [Leaf TD (lit "a") 0 0];
                    Node TR None [Leaf TD (lit "b") 1 0]];
                 Leaf (Tagged Tag_P) (lit "Hello") 2 0])).
Proof. vm_compute. reflexivity. Qed.

(** * Further properties of the code *)

(** ** The order of a page's items *)

Lemma insert_by_key_perm x l : Permutation (insert_by_key x l) (x :: l).
Proof.
  induction l as [|y l IH]; simpl; [reflexivity|].
  destruct (Qgtb (fst y) (fst x)); [reflexivity|].
  rewrite IH. apply perm_swap.
Qed.

Lemma sort_by_key_perm l : Permutation (sort_by_key l) l.
Proof.
  unfold sort_by_key.
  assert (H : forall acc, Permutation (fold_left (fun acc x => insert_by_key x acc) l acc)
                            (acc ++ l)).
  { induction l as [|x l IH]; intros acc; simpl.
    - now rewrite app_nil_r.
    - rewrite IH, insert_by_key_perm. apply Permutation_middle. }
  apply (H []).
Qed.

Lemma insert_by_key_sorted x l :
  StronglySorted key_le l -> StronglySorted key_le (insert_by_key x l).
Proof.
  induction 1 as [|y l Hs IH Hy]; simpl.
  - repeat constructor.
  - destruct (Qgtb (fst y) (fst x)) eqn:E.
    + apply Qgtb_true in E. constructor; [constructor; assumption|].
      constructor; [unfold key_le; lra|].
      eapply Forall_impl; [|exact Hy]. unfold key_le. intros z Hz. lra.
    + apply Qgtb_false in E. constructor; [exact IH|].
      eapply Permutation_Forall; [symmetry; apply insert_by_key_perm|].
      constructor; [exact E | exact Hy].
Qed.

Lemma sort_by_key_sorted l : StronglySorted key_le (sort_by_key l).
Proof.
  unfold sort_by_key.
  assert (H : forall acc, StronglySorted key_le acc ->
                StronglySorted key_le (fold_left (fun acc x => insert_by_key x acc) l acc)).
  { induction l as [|x l IH]; intros acc Hacc; simpl; [exact Hacc|].
    apply IH, insert_by_key_sorted, Hacc. }
  apply H. constructor.
Qed.

(** Elements with one key keep their order. *)
Lemma insert_by_key_stable k x l :
  StronglySorted key_le l ->
  filter (fun p => Qeq_bool (fst p) k) (insert_by_key x l)
  = filter (fun p => Qeq_bool (fst p) k) l ++ (if Qeq_bool (fst x) k then [x] else []).
Proof.
  induction 1 as [|y l Hs IH Hy]; simpl.
  - destruct (Qeq_bool (fst x) k); reflexivity.
  - destruct (Qgtb (fst y) (fst x)) eqn:E.
    + apply Qgtb_true in E. cbn [filter].
      destruct (Qeq_bool (fst x) k) eqn:Ex; [|now rewrite app_nil_r].
      apply Qeq_bool_iff in Ex.
      assert (Hnone : filter (fun p => Qeq_bool (fst p) k) (y :: l) = []).
      { assert (Hall : Forall (fun z => (fst x < fst z)%Q) (y :: l)).
        { constructor; [exact E|].
          eapply Forall_impl; [|exact Hy]. unfold key_le. intros z Hz. lra. }
        clear - Hall Ex. induction Hall as [|z l' Hz _ IH]; [reflexivity|].
        simpl. destruct (Qeq_bool (fst z) k) eqn:Ez; [|exact IH].
        apply Qeq_bool_iff in Ez. exfalso. rewrite Ez, <- Ex in Hz.
        exact (Qlt_irrefl _ Hz). }
      simpl in Hnone. rewrite Hnone. reflexivity.
    + cbn [filter]. rewrite IH.
      destruct (Qeq_bool (fst y) k); reflexivity.
Qed.

Lemma sort_by_key_stable k l :
  filter (fun p => Qeq_bool (fst p) k) (sort_by_key l)
  = filter (fun p => Qeq_bool (fst p) k) l.
Proof.
  unfold sort_by_key.
  assert (H : forall acc, StronglySorted key_le acc ->
            filter (fun p => Qeq_bool (fst p) k)
                   (fold_left (fun acc x => insert_by_key x acc) l acc)
            = filter (fun p => Qeq_bool (fst p) k) acc
              ++ filter (fun p => Qeq_bool (fst p) k) l).
  { induction l as [|x l IH]; intros acc Hacc; simpl.
    - now rewrite app_nil_r.
    - rewrite IH by (apply insert_by_key_sorted, Hacc).
      rewrite insert_by_key_stable by exact Hacc.
      rewrite <- app_assoc. f_equal.
      destruct (Qeq_bool (fst x) k); reflexivity. }
  apply (H []). constructor.
Qed.

Lemma analyze_page_sort fsub fadd page_num pg :
  analyze_page fsub fadd page_num pg = map snd (sort_by_key (discovered fsub fadd page_num pg)).
Proof.
  unfold analyze_page, discovered. destruct (page_blocks pg); reflexivity.
Qed.

(** The sort key of a discovered item is its top edge. *)
Lemma discovered_key fsub fadd page_num pg :
  Forall (fun p => fst p = top_edge (snd p)) (discovered fsub fadd page_num pg).
Proof.
  unfold discovered. destruct (page_blocks pg) as [blocks|]; [|constructor].
  apply Forall_app. split.
  - apply Forall_map, Forall_forall. intros t _. reflexivity.
  - apply filter_map_Forall. intros b [y it]. unfold analyze_block.
    destruct (block_lines b); [|discriminate].
    destruct (is_in_table fsub fadd _ _); [discriminate|].
    destruct (block_styling l) as [[text m] bold].
    destruct (strip text); [discriminate|].
    intros H. inversion H; subst. reflexivity.
Qed.

Lemma map_snd_sorted l :
  Forall (fun p => fst p = top_edge (snd p)) l ->
  StronglySorted key_le l -> StronglySorted top_edge_le (map snd l).
Proof.
  intros Hkey Hs. induction Hs as [|p l Hs IH Hp]; simpl; [constructor|].
  inversion Hkey as [|? ? Hk Hkl]; subst.
  constructor; [apply IH, Hkl|].
  apply Forall_map. rewrite Forall_forall in *.
  intros q Hq. unfold top_edge_le. rewrite <- Hk, <- (Hkl q Hq). apply (Hp q Hq).
Qed.

Lemma map_snd_filter k l :
  Forall (fun p => fst p = top_edge (snd p)) l ->
  filter (at_top_edge k) (map snd l) = map snd (filter (fun p => Qeq_bool (fst p) k) l).
Proof.
  induction 1 as [|p l Hp _ IH]; simpl; [reflexivity|].
  unfold at_top_edge at 1. rewrite <- Hp.
  destruct (Qeq_bool (fst p) k); simpl; now rewrite IH.
Qed.

(** X1.  The items of a page come out in ascending order of their top
    edge: every item is at or above (in page coordinates, not below) all
    the items after it. *)
Theorem analyze_page_sorted fsub fadd page_num pg :
  StronglySorted top_edge_le (analyze_page fsub fadd page_num pg).
Proof.
  rewrite analyze_page_sort. apply map_snd_sorted.
  - eapply Permutation_Forall; [symmetry; apply sort_by_key_perm|].
    apply discovered_key.
  - apply sort_by_key_sorted.
Qed.

(** X2.  Sorting loses and invents nothing: the items of a page are the
    table items and the items of the retained blocks, each once; and it
    is stable: the items sharing one top edge keep the order in which
    they were discovered (tables first, then blocks in reading order). *)
Theorem analyze_page_stable fsub fadd page_num pg :
  Permutation (analyze_page fsub fadd page_num pg) (map snd (discovered fsub fadd page_num pg)) /\
  forall k, filter (at_top_edge k) (analyze_page fsub fadd page_num pg)
            = filter (at_top_edge k) (map snd (discovered fsub fadd page_num pg)).
Proof.
  rewrite analyze_page_sort. split.
  - apply Permutation_map, sort_by_key_perm.
  - intros k. rewrite !map_snd_filter.
    + now rewrite sort_by_key_stable.
    + apply discovered_key.
    + eapply Permutation_Forall; [symmetry; apply sort_by_key_perm|].
      apply discovered_key.
Qed.

Example analyze_page_example :
  map (fun it => (item_type it, top_edge it)) (analyze_page Qminus Qplus 0 sample_layout_page)
  = [(Tag_Table, 50%Q); (Tag_H1, 100%Q); (Tag_P, 200%Q)].
Proof. vm_compute. reflexivity. Qed.

(** ** Trimmed text *)

Lemma lstrip_idem s : lstrip (lstrip s) = lstrip s.
Proof.
  induction s as [|c s IH]; simpl; [reflexivity|].
  destruct (isspace c) eqn:E; [exact IH|]. simpl. now rewrite E.
Qed.

Lemma lstrip_app_word l x r :
  isspace x = false -> lstrip (l ++ x :: r) = lstrip l ++ x :: r.
Proof.
  intros Hx. induction l as [|c l IH]; simpl.
  - now rewrite Hx.
  - destruct (isspace c); [exact IH | reflexivity].
Qed.

Lemma rstrip_keeps_lstrip s : lstrip s = s -> lstrip (rstrip s) = rstrip s.
Proof.
  unfold rstrip. destruct s as [|x s]; [reflexivity|]. simpl.
  destruct (isspace x) eqn:Hx.
  - intros H. exfalso.
    assert (Hlen : List.length (lstrip s) <= List.length s).
    { clear. induction s as [|c s IH]; simpl; [lia|].
      destruct (isspace c); simpl; lia. }
    rewrite H in Hlen. simpl in Hlen. lia.
  - intros _. rewrite (lstrip_app_word (rev s) x [] Hx).
    rewrite rev_app_distr. simpl. now rewrite Hx.
Qed.

(** [strip] returns a string that [strip] leaves alone. *)
Lemma strip_idem s : strip (strip s) = strip s.
Proof.
  unfold strip.
  rewrite (rstrip_keeps_lstrip (lstrip s) (lstrip_idem s)).
  unfold rstrip. now rewrite rev_involutive, lstrip_idem.
Qed.

(** ** What the analysis returns *)

Lemma analyze_block_item fsub fadd page_num height boxes b y it :
  analyze_block fsub fadd page_num height boxes b = Some (y, it) ->
  item_page it = page_num + 1 /\
  item_type it <> Tag_Table /\
  well_formed_item it /\
  item_bbox it = block_bbox b /\
  is_in_table fsub fadd (item_bbox it) boxes = false.
Proof.
  unfold analyze_block. destruct (block_lines b); [|discriminate].
  destruct (is_in_table fsub fadd (block_bbox b) boxes) eqn:Hin; [discriminate|].
  destruct (block_styling l) as [[text m] bold].
  destruct (strip text) as [|c t] eqn:Hs; [discriminate|].
  intros H. inversion H; subst. simpl.
  split; [reflexivity|]. split; [apply tag_of_styling_not_table|].
  split; [|auto].
  unfold well_formed_item. simpl.
  assert (Hwf : @None (list (list cell)) = None /\
                exists t0, Some (c :: t) = Some t0 /\ t0 <> [] /\ strip t0 = t0).
  { split; [reflexivity|]. exists (c :: t). split; [reflexivity|].
    split; [discriminate|]. rewrite <- Hs. apply strip_idem. }
  pose proof (tag_of_styling_not_table m bold).
  destruct (tag_of_styling m bold); [exact Hwf..|congruence].
Qed.

Lemma table_item_wf fsub page_num height found d :
  In d (detect_tables found) ->
  well_formed_item (snd (table_item fsub page_num height d)).
Proof.
  intros H. apply detect_tables_rows in H. destruct H as [Hlen Hrows].
  unfold well_formed_item. simpl. split; [reflexivity|].
  exists (table_cells d). auto.
Qed.

Lemma discovered_items fsub fadd page_num pg :
  Forall (fun p =>
            item_page (snd p) = page_num + 1 /\
            well_formed_item (snd p) /\
            (item_type (snd p) = Tag_Table ->
             In (item_bbox (snd p)) (map table_bbox (detect_tables (page_tables pg)))) /\
            (item_type (snd p) <> Tag_Table ->
             is_in_table fsub fadd (item_bbox (snd p))
                         (map table_bbox (detect_tables (page_tables pg))) = false))
         (discovered fsub fadd page_num pg).
Proof.
  unfold discovered. destruct (page_blocks pg) as [blocks|]; [|constructor].
  apply Forall_app. split.
  - apply Forall_map, Forall_forall. intros d Hd.
    split; [reflexivity|]. split; [eapply table_item_wf; eauto|].
    split; [|simpl; congruence].
    intros _. simpl. apply in_map, Hd.
  - apply filter_map_Forall. intros b [y it] H.
    apply analyze_block_item in H. destruct H as (Hp & Ht & Hwf & _ & Hin). simpl.
    repeat split; auto. congruence.
Qed.

Lemma analyze_page_items fsub fadd page_num pg it :
  In it (analyze_page fsub fadd page_num pg) ->
  item_page it = page_num + 1 /\
  well_formed_item it /\
  (item_type it = Tag_Table ->
   In (item_bbox it) (map table_bbox (detect_tables (page_tables pg)))) /\
  (item_type it <> Tag_Table ->
   is_in_table fsub fadd (item_bbox it) (map table_bbox (detect_tables (page_tables pg))) = false).
Proof.
  rewrite analyze_page_sort. intros H. apply in_map_iff in H.
  destruct H as (p & <- & Hp).
  apply (Permutation_in _ (sort_by_key_perm _)) in Hp.
  pose proof (discovered_items fsub fadd page_num pg) as Hall.
  rewrite Forall_forall in Hall. exact (Hall p Hp).
Qed.

Lemma analyze_pages_items fsub fadd doc : forall n it,
  In it (analyze_pages fsub fadd n doc) ->
  n + 1 <= item_page it <= n + List.length doc /\ well_formed_item it.
Proof.
  induction doc as [|pg doc IH]; intros n it; simpl; [tauto|].
  rewrite in_app_iff. intros [H|H].
  - apply analyze_page_items in H. destruct H as (Hp & Hwf & _). split; [lia | exact Hwf].
  - apply IH in H. destruct H as [Hp Hwf]. split; [lia | exact Hwf].
Qed.

(** X3.  Every item the analysis returns carries the 1-based number of
    a page of the document.  A text item (H1, H2 or P) has a text, which
    is non-empty and already trimmed, and no table data; a table item has
    no text and at least two rows, none of them empty. *)
Theorem analyze_layout_items fsub fadd doc it :
  In it (analyze_layout fsub fadd doc) ->
  1 <= item_page it <= List.length doc /\ well_formed_item it.
Proof.
  intros H. apply analyze_pages_items in H. simpl in H. exact H.
Qed.

(** X4.  No text item of a page lies inside the box of a table item of
    that page, the box taken with its margin of 5 on every side. *)
Theorem text_items_outside_tables fsub fadd page_num pg it tb :
  In it (analyze_page fsub fadd page_num pg) ->
  In tb (analyze_page fsub fadd page_num pg) ->
  item_type it <> Tag_Table ->
  item_type tb = Tag_Table ->
  inside_table fsub fadd (item_bbox it) (item_bbox tb) = false.
Proof.
  intros Hit Htb Htext Htable.
  apply analyze_page_items in Hit. destruct Hit as (_ & _ & _ & Hout).
  apply analyze_page_items in Htb. destruct Htb as (_ & _ & Hbox & _).
  specialize (Hout Htext). specialize (Hbox Htable).
  unfold is_in_table in Hout.
  destruct (inside_table fsub fadd (item_bbox it) (item_bbox tb)) eqn:E; [|reflexivity].
  assert (existsb (inside_table fsub fadd (item_bbox it))
                  (map table_bbox (detect_tables (page_tables pg))) = true);
    [|congruence].
  apply existsb_exists. eauto.
Qed.

Lemma filter_none {A} (f : A -> bool) l :
  Forall (fun a => f a = false) l -> filter f l = [].
Proof.
  induction 1 as [|a l Ha _ IH]; simpl; [reflexivity|]. now rewrite Ha.
Qed.

Lemma filter_all {A} (f : A -> bool) l :
  Forall (fun a => f a = true) l -> filter f l = l.
Proof.
  induction 1 as [|a l Ha _ IH]; simpl; [reflexivity|]. now rewrite Ha, IH.
Qed.

Lemma items_of_page_pages fsub fadd doc : forall n k,
  items_of_page (analyze_pages fsub fadd n doc) k
  = if k <? n then []
    else match nth_error doc (k - n) with
         | Some pg => analyze_page fsub fadd k pg
         | None => []
         end.
Proof.
  unfold items_of_page.
  induction doc as [|pg doc IH]; intros n k; simpl.
  - destruct (k <? n); [reflexivity|]. now destruct (k - n).
  - rewrite filter_app, IH.
    destruct (Nat.ltb_spec k n) as [Hlt|Hge].
    + destruct (Nat.ltb_spec k (S n)); [|lia]. rewrite app_nil_r.
      apply filter_none, Forall_forall. intros it Hit.
      apply analyze_page_items in Hit. destruct Hit as [Hp _].
      apply Nat.eqb_neq. lia.
    + destruct (Nat.eq_dec k n) as [->|Hne].
      * destruct (Nat.ltb_spec n (S n)); [|lia]. rewrite app_nil_r, Nat.sub_diag. simpl.
        apply filter_all, Forall_forall. intros it Hit.
        apply analyze_page_items in Hit. destruct Hit as [Hp _].
        apply Nat.eqb_eq. exact Hp.
      * destruct (Nat.ltb_spec k (S n)); [lia|].
        replace (k - n) with (S (k - S n)) by lia. simpl.
        rewrite filter_none; [reflexivity|].
        apply Forall_forall. intros it Hit.
        apply analyze_page_items in Hit. destruct Hit as [Hp _].
        apply Nat.eqb_neq. lia.
Qed.

(** X5.  Grouping the analysis result by page, as [apply_tagging] does,
    gives each page the items the analysis made for that page, in their
    sorted order, and nothing for a page index past the document. *)
Theorem items_of_page_analyze fsub fadd doc page_idx :
  items_of_page (analyze_layout fsub fadd doc) page_idx
  = match nth_error doc page_idx with
    | Some pg => analyze_page fsub fadd page_idx pg
    | None => []
    end.
Proof.
  unfold analyze_layout. rewrite items_of_page_pages. simpl.
  now rewrite Nat.sub_0_r.
Qed.

Lemma analyze_layout_items_witness :
  1 <= item_page (nth 1 (analyze_layout Qminus Qplus [sample_layout_page]) sample_item) <= 1 /\
  well_formed_item (nth 1 (analyze_layout Qminus Qplus [sample_layout_page]) sample_item).
Proof.
  apply (analyze_layout_items Qminus Qplus [sample_layout_page]).
  vm_compute. right. left. reflexivity.
Defined.

Lemma text_items_outside_tables_witness :
  inside_table Qminus Qplus (item_bbox (nth 1 (analyze_page Qminus Qplus 0 sample_layout_page) sample_item))
               (item_bbox (nth 0 (analyze_page Qminus Qplus 0 sample_layout_page) sample_item))
  = false.
Proof.
  apply (text_items_outside_tables Qminus Qplus 0 sample_layout_page).
  - vm_compute. right. left. reflexivity.
  - vm_compute. left. reflexivity.
  - vm_compute. discriminate.
  - vm_compute. reflexivity.
Defined.

(** ** Which tables are emitted *)

Lemma row_cells_texts h row : map cell_text (row_cells h row) = kept_texts row.
Proof.
  unfold kept_texts.
  induction row as [|[[|c t]|] row IH]; simpl; auto. now rewrite IH.
Qed.

Lemma row_cells_nil h row : row_cells h row = [] <-> existsb cell_kept row = false.
Proof.
  induction row as [|[[|c t]|] row IH]; simpl; try tauto.
  split; discriminate.
Qed.

Lemma body_rows_texts rows :
  map (map cell_text) (body_rows rows) = map kept_texts (kept_rows rows).
Proof.
  unfold kept_rows. induction rows as [|row rows IH]; simpl; [reflexivity|].
  pose proof (row_cells_nil false row) as Hnil.
  pose proof (row_cells_texts false row) as Htexts.
  destruct (row_cells false row) as [|c cs] eqn:E.
  - rewrite (proj1 Hnil eq_refl). exact IH.
  - destruct (existsb cell_kept row) eqn:Ek.
    + simpl. now rewrite <- Htexts, IH.
    + destruct Hnil as [_ Hnil]. discriminate (Hnil eq_refl).
Qed.

(** X6.  When [table.extract()] succeeds, a table is emitted exactly when
    at least two of its rows hold a non-empty string.  The emitted table
    has the box of the detection and one row per such row, holding the
    stripped texts of the non-empty strings in order; no cell after the
    first emitted row is a header cell, and the cells of the first
    emitted row are header cells when row 0 is one of those rows. *)
Theorem extract_table_rows_kept t rows :
  td_extract t = Some rows ->
  (List.length (kept_rows rows) < 2 -> extract_table t = None) /\
  (2 <= List.length (kept_rows rows) ->
   exists d,
     extract_table t = Some d /\
     table_bbox d = td_bbox t /\
     map (map cell_text) (table_cells d) = map kept_texts (kept_rows rows) /\
     Forall (Forall (fun c => is_header c = false)) (tl (table_cells d)) /\
     (existsb cell_kept (hd [] rows) = true ->
      Forall (fun c => is_header c = true) (hd [] (table_cells d)))).
Proof.
  intros Hex. unfold extract_table. rewrite Hex.
  destruct rows as [|row0 rows]; [simpl; split; [reflexivity | lia]|].
  set (cells := _ ++ body_rows rows).
  assert (Htexts : map (map cell_text) cells = map kept_texts (kept_rows (row0 :: rows))).
  { unfold cells, kept_rows. cbn [filter]. rewrite map_app, body_rows_texts.
    pose proof (row_cells_nil true row0) as Hnil.
    pose proof (row_cells_texts true row0) as Ht.
    destruct (row_cells true row0) as [|c cs] eqn:E.
    - now rewrite (proj1 Hnil eq_refl).
    - destruct (existsb cell_kept row0) eqn:Ek.
      + simpl. now rewrite <- Ht.
      + destruct Hnil as [_ Hnil]. discriminate (Hnil eq_refl). }
  assert (Hlen : List.length cells = List.length (kept_rows (row0 :: rows))).
  { rewrite <- (length_map (map cell_text) cells), Htexts. apply length_map. }
  split.
  - intros Hlt. destruct (Nat.ltb_spec 1 (List.length cells)); [lia | reflexivity].
  - intros Hge. destruct (Nat.ltb_spec 1 (List.length cells)); [|lia].
    eexists. split; [reflexivity|]. cbn [table_bbox table_cells].
    split; [reflexivity|]. split; [exact Htexts|].
    unfold cells. pose proof (row_cells_header true row0) as Hh.
    pose proof (row_cells_nil true row0) as Hnil.
    destruct (row_cells true row0) as [|c cs] eqn:E; cbn [app hd tl].
    + split.
      * pose proof (body_rows_not_header rows) as Hb.
        destruct (body_rows rows); [constructor|]. now inversion Hb.
      * cbn [hd]. intros Hk. rewrite (proj1 Hnil eq_refl) in Hk. discriminate.
    + split; [apply body_rows_not_header | intros _; exact Hh].
Qed.

Lemma extract_table_rows_kept_witness :
  exists d,
    extract_table sample_table_detection = Some d /\
    table_bbox d = td_bbox sample_table_detection /\
    map (map cell_text) (table_cells d)
    = map kept_texts (kept_rows [[Some (lit "Name"); Some (lit "Age")];
                                 [Some (lit "Ann"); Some (lit "30")]]) /\
    Forall (Forall (fun c => is_header c = false)) (tl (table_cells d)) /\
    (existsb cell_kept (hd [] [[Some (lit "Name"); Some (lit "Age")];
                               [Some (lit "Ann"); Some (lit "30")]]) = true ->
     Forall (fun c => is_header c = true) (hd [] (table_cells d))).
Proof.
  apply (extract_table_rows_kept sample_table_detection
           [[Some (lit "Name"); Some (lit "Age")]; [Some (lit "Ann"); Some (lit "30")]]).
  - reflexivity.
  - vm_compute. lia.
Defined.

(** X7.  The test on a cell is made before its text is stripped: a cell
    holding only whitespace is kept with the empty text, so a detection
    of two rows of blank cells is emitted as a table of two empty-text
    cells. *)
Theorem blank_cells_kept box s1 s2 :
  s1 <> [] -> s2 <> [] -> has_word s1 = false -> has_word s2 = false ->
  extract_table {| td_bbox := box; td_extract := Some [[Some s1]; [Some s2]] |}
  = Some {| table_bbox := box;
            table_cells := [ [ {| cell_text := []; is_header := true |} ];
                             [ {| cell_text := []; is_header := false |} ] ] |}.
Proof.
  intros H1 H2 Hw1 Hw2.
  assert (Hs : forall s, has_word s = false -> strip s = []).
  { intros s Hw. unfold strip. now rewrite (lstrip_no_word s Hw). }
  destruct s1 as [|c1 t1]; [congruence|]. destruct s2 as [|c2 t2]; [congruence|].
  unfold extract_table. cbn [td_extract td_bbox row_cells body_rows].
  rewrite (Hs _ Hw1), (Hs _ Hw2). reflexivity.
Qed.

Lemma blank_cells_kept_witness :
  extract_table {| td_bbox := origin;
                   td_extract := Some [[Some (lit " ")]; [Some (lit "  ")]] |}
  = Some {| table_bbox := origin;
            table_cells := [ [ {| cell_text := []; is_header := true |} ];
                             [ {| cell_text := []; is_header := false |} ] ] |}.
Proof.
  apply (blank_cells_kept origin (lit " ") (lit "  "));
    solve [discriminate | reflexivity].
Defined.

(** ** The matcher and the case of the run text *)

Lemma match_loop_lower lower t1 t2 used items :
  lower t1 = lower t2 ->
  forall idx b s,
    match_loop lower t1 used idx items b s = match_loop lower t2 used idx items b s.
Proof.
  intros H. induction items as [|it items IH]; intros idx b s; [reflexivity|].
  cbn [match_loop].
  assert (Hstep : match_step lower t1 used idx it b s = match_step lower t2 used idx it b s).
  { unfold match_step. now rewrite H. }
  rewrite Hstep. destruct (match_step lower t2 used idx it b s) as [[b' s'|i]|e];
    cbn [bind]; auto.
Qed.

(** X8.  The matcher reads the run text through [lower] only: two
    non-empty run texts with the same lower-cased form get the same
    answer, whatever the items are. *)
Theorem find_best_match_case lower t1 t2 items used :
  t1 <> [] -> t2 <> [] -> lower t1 = lower t2 ->
  find_best_match lower t1 items used = find_best_match lower t2 items used.
Proof.
  intros H1 H2 H. destruct t1; [congruence|]. destruct t2; [congruence|].
  apply match_loop_lower, H.
Qed.

Lemma find_best_match_case_witness :
  find_best_match latin1_lower (lit "INVOICE total")
    [text_item 1 Tag_P "Invoice total due now"; text_item 1 Tag_H1 "Totals"] []
  = find_best_match latin1_lower (lit "invoice TOTAL")
      [text_item 1 Tag_P "Invoice total due now"; text_item 1 Tag_H1 "Totals"] [].
Proof.
  apply find_best_match_case; solve [discriminate | reflexivity].
Defined.

(** ** The text runs *)

Lemma skipn_cons {A} pos (l : list A) c s :
  skipn pos l = c :: s -> skipn (S pos) l = s.
Proof.
  intros H. change (S pos) with (1 + pos). rewrite <- skipn_skipn, H. reflexivity.
Qed.

(** A match object carries the positions of a match of the pattern. *)
Lemma finditer_from_group p subject s : forall pos skip m,
  skipn pos subject = s ->
  In m (finditer_from p pos skip s) ->
  exists g rest,
    match_here p (group0 subject m ++ rest) = Some (g, rest) /\
    m_group1 m = g.
Proof.
  induction s as [|c s IH]; intros pos skip m Hs.
  - destruct skip; simpl; [|tauto].
    destruct (match_here p []) as [[g rest]|] eqn:E; simpl; [|tauto].
    intros [<-|[]]. exists g, rest.
    destruct (match_here_suffix _ _ _ _ E) as [pre Hpre].
    symmetry in Hpre. apply app_eq_nil in Hpre. destruct Hpre as [-> ->].
    unfold group0, slice. cbn [m_start m_end m_group1].
    rewrite Hs, firstn_nil. simpl. auto.
  - pose proof (skipn_cons _ _ _ _ Hs) as Hs'.
    destruct skip as [|k]; cbn [finditer_from]; [|apply IH; exact Hs'].
    destruct (match_here p (c :: s)) as [[g rest]|] eqn:E; [|apply IH; exact Hs'].
    intros [<-|H]; [|eapply IH; eauto].
    exists g, rest.
    destruct (match_here_suffix _ _ _ _ E) as [pre Hpre].
    unfold group0, slice. cbn [m_start m_end m_group1].
    rewrite Hs, Hpre, length_app.
    replace (pos + (List.length pre + List.length rest - List.length rest) - pos)
      with (List.length pre + 0) by lia.
    rewrite firstn_app_2. simpl. rewrite app_nil_r, <- Hpre. auto.
Qed.

(** A match of the BT...ET pattern ends with the first [ET] after [BT]
    and its whitespace character: the whitespace taken by [\s+] holds no
    [E], and the lazy [.*?] stops where [ET] first matches. *)
Lemma bt_et_match_first t g rest :
  match_here bt_et_pattern t = Some (g, rest) ->
  exists w b,
    isspace w = true /\ t = lit "BT" ++ w :: b ++ lit "ET" ++ rest /\
    contains (lit "ET") (b ++ lit "E") = false.
Proof.
  change bt_et_pattern
    with [Lit 66%N; Lit 84%N; Plus isspace; LazyStar any_char false; Lit 69%N; Lit 84%N].
  cbn [match_here].
  destruct t as [|x1 t]; [discriminate|].
  destruct (char_eqb x1 66%N) eqn:E1; [|discriminate]. apply N.eqb_eq in E1. subst x1.
  destruct t as [|x2 t]; [discriminate|].
  destruct (char_eqb x2 84%N) eqn:E2; [|discriminate]. apply N.eqb_eq in E2. subst x2.
  destruct t as [|w t]; [discriminate|].
  destruct (isspace w) eqn:Ew; [|discriminate].
  intros H. apply greedy_star_class in H. destruct H as (pre1 & post1 & -> & H & Hws).
  apply lazy_star_first in H. destruct H as (pre2 & post2 & g' & -> & H & Hmin).
  destruct post2 as [|y1 post2]; [discriminate|].
  destruct (char_eqb y1 69%N) eqn:E3; [|discriminate]. apply N.eqb_eq in E3. subst y1.
  destruct post2 as [|y2 post2]; [discriminate|].
  destruct (char_eqb y2 84%N) eqn:E4; [|discriminate]. apply N.eqb_eq in E4. subst y2.
  inversion H; subst.
  exists w, (pre1 ++ pre2). split; [exact Ew|]. split.
  { change (lit "BT") with [66%N; 84%N]. change (lit "ET") with [69%N; 84%N].
    simpl. now rewrite <- app_assoc. }
  destruct (contains (lit "ET") ((pre1 ++ pre2) ++ lit "E")) eqn:Hc; [|reflexivity].
  exfalso. apply contains_inv in Hc. destruct Hc as (a & c & Hc).
  change (lit "ET") with [69%N; 84%N] in Hc. change (lit "E") with [69%N] in Hc.
  rewrite <- app_assoc in Hc.
  assert (Hin : exists l, a = pre1 ++ l /\ pre2 ++ [69%N] = l ++ [69%N; 84%N] ++ c).
  { apply app_eq_app in Hc. destruct Hc as (l & [[Hp Hl]|[Ha Hl]]).
    - destruct l as [|x l].
      + exists []. rewrite app_nil_r in Hp. simpl in Hl. subst. rewrite app_nil_r. auto.
      + simpl in Hl. inversion Hl; subst x. exfalso.
        rewrite forallb_forall in Hws.
        assert (Hsp : isspace 69%N = true)
          by (apply Hws; rewrite Hp; apply in_or_app; right; now left).
        discriminate.
    - exists l. auto. }
  destruct Hin as (l & _ & Hl).
  destruct c as [|z c0].
  - change (l ++ [69%N; 84%N] ++ []) with (l ++ [69%N; 84%N]) in Hl.
    replace (l ++ [69%N; 84%N]) with ((l ++ [69%N]) ++ [84%N]) in Hl
      by (now rewrite <- app_assoc).
    apply app_inj_tail in Hl. destruct Hl as [_ Hl]. discriminate.
  - destruct (@exists_last _ (z :: c0) ltac:(discriminate)) as (c' & z' & Hc').
    rewrite Hc' in Hl.
    replace (l ++ [69%N; 84%N] ++ c' ++ [z']) with ((l ++ [69%N; 84%N] ++ c') ++ [z']) in Hl
      by (now rewrite <- !app_assoc).
    apply app_inj_tail in Hl. destruct Hl as [Hl _].
    specialize (Hmin l ([69%N; 84%N] ++ c') Hl ltac:(discriminate)).
    simpl in Hmin. discriminate.
Qed.

Lemma finditer_bt_et_block s m :
  In m (finditer bt_et_pattern s) -> bt_et_block (group0 s m).
Proof.
  intros H. destruct (finditer_from_group bt_et_pattern s s 0 0 m eq_refl H)
    as (g & rest & Hm & _).
  destruct (bt_et_match_first _ _ _ Hm) as (w & b & Hw & Heq & Hfirst).
  exists w, b. split; [exact Hw|]. split; [|exact Hfirst].
  assert (E : lit "BT" ++ w :: b ++ lit "ET" ++ rest
              = (lit "BT" ++ w :: b ++ lit "ET") ++ rest).
  { change (lit "BT") with [66%N; 84%N]. simpl. now rewrite <- app_assoc. }
  rewrite E in Heq. now apply app_inv_tail in Heq.
Qed.

Lemma map_to_N_inj (a b : bytes) : map Byte.to_N a = map Byte.to_N b -> a = b.
Proof.
  revert b. induction a as [|x a IH]; intros [|y b] H; try discriminate; [reflexivity|].
  simpl in H. inversion H as [[Hx Ha]]. f_equal; [|now apply IH].
  assert (E : Byte.of_N (Byte.to_N x) = Byte.of_N (Byte.to_N y)) by now rewrite Hx.
  rewrite !Byte.of_to_N in E. now inversion E.
Qed.

Section RewriterRuns.

Variable lower : str -> str.
Hypothesis lower_has_word : forall s, has_word (lower s) = has_word s.

(** The segments of a rewrite, with what the two loops guarantee about
    them. *)
Lemma rewrite_runs content_bytes items :
  exists segs tail out,
    map Byte.to_N content_bytes = original segs tail /\
    insert_marked_content_by_bbox lower content_bytes items = Ok out /\
    map Byte.to_N out = rewritten segs tail /\
    Forall (fun sg => bt_et_block (seg_run sg)) segs /\
    Forall (fun sg => forall t k, seg_mark sg = Some (t, k) ->
              exists it, nth_error items k = Some it /\ item_type it = t /\
                         item_type it <> Tag_Table /\ strip (get_text it) <> []) segs.
Proof.
  destruct (rewrite_parts lower lower_has_word content_bytes items)
    as (tbm & parts & out & Htbm & Hfst & Hidx & Hparts & Hout & Hmap).
  set (s := map Byte.to_N content_bytes) in *.
  destruct (match_blocks_spec lower lower_has_word s items (finditer bt_et_pattern s) [])
    as (tbm' & Htbm' & _ & _ & Hin).
  assert (tbm' = tbm) by congruence. subst tbm'.
  destruct (content_parts_spec s items tbm 0) as
    (parts' & segs & tail & Hparts' & Horig & Hnew & Hruns & Hmarks & Hok & _);
    [apply latin1_decode_chars | rewrite Hfst; apply finditer_ordered | exact Hidx |].
  assert (parts' = parts) by congruence. subst parts'.
  exists segs, tail, out.
  split; [exact Horig|]. split; [exact Hout|]. split; [now rewrite Hmap|]. split.
  - rewrite Hfst in Hruns. apply Forall_forall. intros sg Hsg.
    assert (Hr : In (seg_run sg) (map (group0 s) (finditer bt_et_pattern s))).
    { rewrite <- Hruns. now apply in_map. }
    apply in_map_iff in Hr. destruct Hr as (m & <- & Hm).
    now apply finditer_bt_et_block.
  - apply Forall_forall. intros sg Hsg t k Hmark.
    pose proof (mark_in_wrapped segs tbm sg t k Hmarks Hsg Hmark) as Hk.
    destruct (Hin k Hk) as (_ & it & Hit & Htag & Htext).
    rewrite Forall_forall in Hok. specialize (Hok sg Hsg).
    unfold mark_ok in Hok. rewrite Hmark in Hok.
    destruct Hok as (it' & Hit' & Ht).
    assert (it' = it) by congruence. subst it'. eauto.
Qed.

(** X9.  Where the marked content goes: the runs of the rewritten
    stream are the matches of the BT...ET pattern, and every run, marked
    or not, begins with [BT] and a whitespace character and ends with the
    first [ET] that follows them, wherever that [ET] stands; and the tag
    of a begin operator is never [Table].  (The first
    [ET] may stand inside a string literal, so a run need not be a whole
    text object: see [run_cut_inside_string].) *)
Theorem runs_are_text_objects content_bytes items :
  exists segs tail out,
    latin1_decode content_bytes = Some (original segs tail) /\
    insert_marked_content_by_bbox lower content_bytes items = Ok out /\
    latin1_decode out = Some (rewritten segs tail) /\
    map seg_run segs
    = map (group0 (original segs tail)) (finditer bt_et_pattern (original segs tail)) /\
    Forall (fun sg => bt_et_block (seg_run sg)) segs /\
    Forall mark_not_table segs.
Proof.
  destruct (rewrite_marks lower lower_has_word content_bytes items)
    as (segs & tail & out & Horig & Hout & Hnew & Hruns & _ & Hmarks).
  exists segs, tail, out. unfold latin1_decode. rewrite <- Horig, Hnew.
  split; [reflexivity|]. split; [exact Hout|]. split; [reflexivity|].
  split; [exact Hruns|]. split.
  - apply Forall_forall. intros sg Hsg.
    assert (Hr : In (seg_run sg)
                    (map (group0 (map Byte.to_N content_bytes))
                         (finditer bt_et_pattern (map Byte.to_N content_bytes)))).
    { rewrite <- Hruns. now apply in_map. }
    apply in_map_iff in Hr. destruct Hr as (m & <- & Hm).
    now apply finditer_bt_et_block.
  - eapply Forall_impl; [|exact Hmarks]. intros sg H. unfold mark_not_table.
    destruct (seg_mark sg) as [[t k]|] eqn:Hmark; [|exact I].
    destruct (H t k Hmark) as (it & _ & <- & Htag & _). exact Htag.
Qed.

(** X10.  When no item of the page can be matched (each is a table or
    has blank text; in particular when there is no item), the rewriter
    returns the bytes it was given, whatever they are. *)
Theorem rewrite_without_candidates content_bytes items :
  Forall never_eligible items ->
  insert_marked_content_by_bbox lower content_bytes items = Ok content_bytes.
Proof.
  intros Hnone.
  destruct (rewrite_runs content_bytes items)
    as (segs & tail & out & Horig & Hout & Hnew & _ & Hmarks).
  rewrite Hout. f_equal. apply map_to_N_inj. rewrite Hnew, Horig.
  unfold original, rewritten. f_equal. f_equal.
  apply map_ext_in. intros sg Hsg. f_equal.
  rewrite Forall_forall in Hmarks. specialize (Hmarks sg Hsg).
  destruct (seg_mark sg) as [[t k]|] eqn:Hmark; [|reflexivity].
  destruct (Hmarks t k eq_refl) as (it & Hit & _ & Htag & Htext).
  apply nth_error_In in Hit. rewrite Forall_forall in Hnone.
  destruct (Hnone it Hit); contradiction.
Qed.

End RewriterRuns.

Lemma runs_are_text_objects_witness :
  exists segs tail out,
    latin1_decode (bytes_of "q BT (A) Tj (SET) Tj ET Q BT (Other) Tj ET")
    = Some (original segs tail) /\
    insert_marked_content_by_bbox latin1_lower
      (bytes_of "q BT (A) Tj (SET) Tj ET Q BT (Other) Tj ET")
      [table_item_of 1 [[lit "A"]; [lit "x"]]; text_item 1 Tag_P "A"] = Ok out /\
    latin1_decode out = Some (rewritten segs tail) /\
    map seg_run segs
    = map (group0 (original segs tail)) (finditer bt_et_pattern (original segs tail)) /\
    Forall (fun sg => bt_et_block (seg_run sg)) segs /\
    Forall mark_not_table segs.
Proof.
  exact (runs_are_text_objects latin1_lower latin1_lower_has_word
           (bytes_of "q BT (A) Tj (SET) Tj ET Q BT (Other) Tj ET")
           [table_item_of 1 [[lit "A"]; [lit "x"]]; text_item 1 Tag_P "A"]).
Defined.

(** The first [ET] after [BT] is the one in the string [(SET)]: the run
    ends there, and the end operator is written into the string. *)
Example run_cut_inside_string :
  insert_marked_content_by_bbox latin1_lower (bytes_of "BT (A) Tj (SET) Tj ET")
    [text_item 1 Tag_P "A"]
  = Ok (bytes_of "/P <</MCID 0>> BDC
BT (A) Tj (SET
EMC) Tj ET").
Proof. vm_compute. reflexivity. Qed.

Lemma rewrite_without_candidates_witness :
  insert_marked_content_by_bbox latin1_lower
    (bytes_of "q BT (Hello) Tj ET Q")
    [table_item_of 1 [[lit "Hello"]; [lit "x"]]; text_item 1 Tag_P "  "]
  = Ok (bytes_of "q BT (Hello) Tj ET Q").
Proof.
  apply (rewrite_without_candidates latin1_lower latin1_lower_has_word).
  constructor; [left; reflexivity|].
  constructor; [right; reflexivity|].
  constructor.
Defined.

(** ** Runs that show no text *)

Lemma match_here_app p q : forall s g rest,
  match_here (p ++ q) s = Some (g, rest) ->
  exists pre s' g', s = pre ++ s' /\ match_here q s' = Some (g', rest).
Proof.
  induction p as [|a p IH]; intros s g rest H.
  - exists [], s, g. auto.
  - cbn [app match_here] in H. destruct a as [c|cls|cls|cls cap].
    + destruct s as [|x s]; [discriminate|].
      destruct (char_eqb x c); [|discriminate].
      destruct (IH _ _ _ H) as (pre & s' & g' & -> & Hq).
      exists (x :: pre), s', g'. auto.
    + destruct s as [|x s]; [discriminate|].
      destruct (cls x); [|discriminate].
      apply greedy_star_inv in H. destruct H as (pre1 & post & -> & H).
      destruct (IH _ _ _ H) as (pre & s' & g' & -> & Hq).
      exists (x :: pre1 ++ pre), s', g'. split; [|exact Hq].
      simpl. now rewrite app_assoc.
    + apply greedy_star_inv in H. destruct H as (pre1 & post & -> & H).
      destruct (IH _ _ _ H) as (pre & s' & g' & -> & Hq).
      exists (pre1 ++ pre), s', g'. split; [|exact Hq]. now rewrite app_assoc.
    + apply lazy_star_inv in H. destruct H as (pre1 & post & g1 & -> & H).
      destruct (IH _ _ _ H) as (pre & s' & g' & -> & Hq).
      exists (pre1 ++ pre), s', g'. split; [|exact Hq]. now rewrite app_assoc.
Qed.

Lemma match_here_lits w : forall s g rest,
  match_here (map Lit w) s = Some (g, rest) -> s = w ++ rest.
Proof.
  induction w as [|c w IH]; intros s g rest; simpl.
  - intros H. now inversion H.
  - destruct s as [|x s]; [discriminate|].
    destruct (char_eqb x c) eqn:E; [|discriminate].
    apply N.eqb_eq in E. subst x. intros H. now rewrite (IH _ _ _ H).
Qed.

(** A pattern that ends with a literal word only matches in a subject
    that contains the word. *)
Lemma finditer_contains p w s m :
  In m (finditer (p ++ map Lit w) s) -> contains w s = true.
Proof.
  intros H.
  destruct (finditer_from_match _ s 0 0 m H) as (pre & t & g & rest & -> & Hm).
  destruct (match_here_app _ _ _ _ _ Hm) as (pre2 & s' & g' & -> & Hq).
  rewrite (match_here_lits _ _ _ _ Hq), app_assoc. apply contains_app.
Qed.

(** X11.  A block in which neither [Tj] nor [TJ] occurs has no visible
    text: the extracted text is empty. *)
Theorem extract_text_without_operators block :
  contains (lit "Tj") block = false ->
  contains (lit "TJ") block = false ->
  extract_text_from_bt_et block = [].
Proof.
  intros Htj Harr. unfold extract_text_from_bt_et.
  assert (E1 : finditer tj_pattern block = []).
  { destruct (finditer tj_pattern block) as [|m ms] eqn:E; [reflexivity|].
    assert (Hc : contains (lit "Tj") block = true); [|congruence].
    apply (finditer_contains
             (lits "(" ++ [LazyStar not_newline true] ++ lits ")" ++ [Star isspace])
             (lit "Tj") block m).
    change (In m (finditer tj_pattern block)). rewrite E. now left. }
  assert (E2 : finditer tj_array_pattern block = []).
  { destruct (finditer tj_array_pattern block) as [|m ms] eqn:E; [reflexivity|].
    assert (Hc : contains (lit "TJ") block = true); [|congruence].
    apply (finditer_contains
             (lits "[" ++ [LazyStar not_newline true] ++ lits "]" ++ [Star isspace])
             (lit "TJ") block m).
    change (In m (finditer tj_array_pattern block)). rewrite E. now left. }
  rewrite E1, E2. reflexivity.
Qed.

Lemma extract_text_without_operators_witness :
  extract_text_from_bt_et (lit "BT /F1 12 Tf 72 700 Td ET") = [].
Proof.
  apply extract_text_without_operators; reflexivity.
Defined.

(** The first loop assigns an item only to a run with text. *)
Lemma match_blocks_text lower s items : forall matches used tbm,
  match_blocks lower s matches items used = Ok tbm ->
  Forall (fun mi => snd mi <> None ->
                    extract_text_from_bt_et (group0 s (fst mi)) <> []) tbm.
Proof.
  induction matches as [|m matches IH]; intros used tbm; cbn [match_blocks].
  - intros H. inversion H. constructor.
  - destruct (find_best_match lower (extract_text_from_bt_et (group0 s m)) items used)
      as [[i|]|e] eqn:E; cbn [bind]; [| |discriminate].
    + destruct (match_blocks lower s matches items (i :: used)) as [rest|e] eqn:Er;
        cbn [bind]; [|discriminate].
      intros H. inversion H; subst. constructor; [|eapply IH; eauto].
      simpl. intros _ Hempty. rewrite Hempty in E. discriminate.
    + destruct (match_blocks lower s matches items used) as [rest|e] eqn:Er;
        cbn [bind]; [|discriminate].
      intros H. inversion H; subst. constructor; [|eapply IH; eauto].
      simpl. congruence.
Qed.

Lemma marks_follow_runs (R : str -> option nat -> Prop) s segs : forall tbm,
  map seg_run segs = map (group0 s) (map fst tbm) ->
  map (fun sg => option_map snd (seg_mark sg)) segs = map snd tbm ->
  Forall (fun mi => R (group0 s (fst mi)) (snd mi)) tbm ->
  Forall (fun sg => R (seg_run sg) (option_map snd (seg_mark sg))) segs.
Proof.
  induction segs as [|sg segs IH]; intros [|mi tbm] Hr Hm Hall;
    try discriminate; [constructor|].
  simpl in Hr, Hm. inversion Hr as [[Hr1 Hr2]]. inversion Hm as [[Hm1 Hm2]].
  inversion Hall; subst. constructor; [|eapply IH; eauto].
  rewrite Hr1, Hm1. assumption.
Qed.

Section UnmarkedRuns.

Variable lower : str -> str.
Hypothesis lower_has_word : forall s, has_word (lower s) = has_word s.

(** X12.  A run whose extracted text is empty is copied without marked
    content: every marked run of the rewritten stream has visible text. *)
Theorem marked_runs_have_text content_bytes items :
  exists segs tail out,
    latin1_decode content_bytes = Some (original segs tail) /\
    insert_marked_content_by_bbox lower content_bytes items = Ok out /\
    latin1_decode out = Some (rewritten segs tail) /\
    Forall (fun sg => seg_mark sg <> None ->
                      extract_text_from_bt_et (seg_run sg) <> []) segs.
Proof.
  destruct (rewrite_parts lower lower_has_word content_bytes items)
    as (tbm & parts & out & Htbm & Hfst & Hidx & Hparts & Hout & Hmap).
  set (s := map Byte.to_N content_bytes) in *.
  destruct (content_parts_spec s items tbm 0) as
    (parts' & segs & tail & Hparts' & Horig & Hnew & Hruns & Hmarks & _);
    [apply latin1_decode_chars | rewrite Hfst; apply finditer_ordered | exact Hidx |].
  assert (parts' = parts) by congruence. subst parts'.
  exists segs, tail, out. unfold latin1_decode. fold s.
  simpl in Horig. rewrite <- Horig, Hmap, Hnew.
  repeat split; auto.
  pose proof (marks_follow_runs
                (fun run idx => idx <> None -> extract_text_from_bt_et run <> [])
                s segs tbm Hruns Hmarks (match_blocks_text _ _ _ _ _ _ Htbm)) as H.
  eapply Forall_impl; [|exact H]. cbv beta. intros sg Hsg Hmark. apply Hsg.
  destruct (seg_mark sg); [discriminate | congruence].
Qed.

End UnmarkedRuns.

Lemma marked_runs_have_text_witness :
  exists segs tail out,
    latin1_decode (bytes_of "BT /F1 12 Tf ET BT (Hello) Tj ET")
    = Some (original segs tail) /\
    insert_marked_content_by_bbox latin1_lower
      (bytes_of "BT /F1 12 Tf ET BT (Hello) Tj ET") [text_item 1 Tag_P "Hello"] = Ok out /\
    latin1_decode out = Some (rewritten segs tail) /\
    Forall (fun sg => seg_mark sg <> None ->
                      extract_text_from_bt_et (seg_run sg) <> []) segs.
Proof.
  exact (marked_runs_have_text latin1_lower latin1_lower_has_word
           (bytes_of "BT /F1 12 Tf ET BT (Hello) Tj ET") [text_item 1 Tag_P "Hello"]).
Defined.

(** ** The structure tree, element by element *)








(** A cell that cannot be made ends the table: the row it belongs to
    stays with the cells made before it, the rows after it are not made,
    and the counter has moved by the cells that were made. *)
Example interrupted_table_example :
  build_rows encodable_title 0
    [[ {| cell_text := lit "a"; is_header := true |};
       {| cell_text := [55296%N]; is_header := true |};
       {| cell_text := lit "c"; is_header := true |} ];
     [ {| cell_text := lit "d"; is_header := false |} ]] 0
  = ([Node TR None [Leaf TH (lit "a") 0 0]], 1, false).
Proof. vm_compute. reflexivity. Qed.


Example text_element_mcid_example :
  map referenced_mcids
      (fst (build_elements always_created 0 (analyze_page Qminus Qplus 0 sample_layout_page) 0))
  = [[0; 1; 2; 3]; [4]; [5]].
Proof. vm_compute. reflexivity. Qed.

(** ** The pages of the document *)

Lemma tag_pages_nth lower decode creates items : forall pages page_idx r,
  tag_pages lower decode creates page_idx pages items = Ok r ->
  List.length (fst r) = List.length pages /\
  (forall k page,
     nth_error pages k = Some page ->
     match items_of_page items (page_idx + k) with
     | [] => nth_error (fst r) k = Some page
     | items_for_page =>
         exists p,
           tag_page lower decode creates (page_idx + k) page items_for_page = Ok p /\
           nth_error (fst r) k = Some (fst p) /\
           (forall sect, snd p = Some sect -> In sect (snd r))
     end) /\
  (forall sect,
     In sect (snd r) ->
     exists k page p,
       nth_error pages k = Some page /\
       items_of_page items (page_idx + k) <> [] /\
       tag_page lower decode creates (page_idx + k) page (items_of_page items (page_idx + k)) = Ok p /\
       snd p = Some sect).
Proof.
  induction pages as [|page pages IH]; intros page_idx r; cbn [tag_pages].
  - intros H. inversion H; subst. simpl. split; [reflexivity|]. split.
    + intros [|k] pg Hk; discriminate.
    + intros sect [].
  - destruct (items_of_page items page_idx) as [|it its] eqn:Hitems.
    + destruct (tag_pages lower decode creates (S page_idx) pages items) as [r'|e] eqn:Hr;
        cbn [bind]; [|discriminate].
      intros H. inversion H; subst r. clear H. cbn [fst snd].
      destruct (IH _ _ Hr) as (Hlen & Hpages & Hsects).
      split; [simpl; now rewrite Hlen|]. split.
      * intros [|k] pg Hk.
        -- simpl in Hk. inversion Hk; subst pg. rewrite Nat.add_0_r, Hitems. reflexivity.
        -- rewrite Nat.add_succ_r. apply (Hpages k pg Hk).
      * intros sect Hs. destruct (Hsects sect Hs) as (k & pg & p & Hk & Hne & Hp & Hsp).
        exists (S k), pg, p. rewrite Nat.add_succ_r. auto.
    + destruct (tag_page lower decode creates page_idx page (it :: its)) as [p|e] eqn:Hp;
        cbn [bind]; [|discriminate].
      destruct (tag_pages lower decode creates (S page_idx) pages items) as [r'|e] eqn:Hr;
        cbn [bind]; [|discriminate].
      intros H. inversion H; subst r. clear H. cbn [fst snd].
      destruct (IH _ _ Hr) as (Hlen & Hpages & Hsects).
      split; [simpl; now rewrite Hlen|]. split.
      * intros [|k] pg Hk.
        -- simpl in Hk. inversion Hk; subst pg. rewrite Nat.add_0_r, Hitems.
           exists p. split; [exact Hp|]. split; [reflexivity|].
           intros sect Hs. rewrite Hs. now left.
        -- rewrite Nat.add_succ_r. specialize (Hpages k pg Hk).
           change (S page_idx + k) with (S (page_idx + k)) in Hpages.
           cbn [nth_error].
           destruct (items_of_page items (S (page_idx + k))); [exact Hpages|].
           destruct Hpages as (q & Hq & Hnth & Hin). exists q.
           split; [exact Hq|]. split; [exact Hnth|].
           intros sect Hs. specialize (Hin sect Hs).
           destruct (snd p); [now right | exact Hin].
      * intros sect Hs.
        assert (Hcases : snd p = Some sect \/ In sect (snd r')).
        { destruct (snd p); [destruct Hs as [<-|Hs]|]; auto. }
        destruct Hcases as [Hhere|Hlater].
        -- exists 0, page, p. rewrite Nat.add_0_r, Hitems.
           repeat split; auto. discriminate.
        -- destruct (Hsects sect Hlater) as (k & pg & q & Hk & Hne & Hq & Hsq).
           exists (S k), pg, q. rewrite Nat.add_succ_r. auto.
Qed.

(** X16.  [apply_tagging] works page by page and returns every page of
    the document.  A page for which the item list has no item is
    returned as it was; any other page is what the per-page step makes of
    it with the items whose page number is its index plus one, and its
    section, if the step builds one, is added to the root.  Every
    section of the root comes from such a page; items numbered for a
    page the document does not have are not used. *)
Theorem apply_tagging_pages lower decode creates pages items r :
  apply_tagging lower decode creates pages items = Ok r ->
  List.length (fst r) = List.length pages /\
  (forall k page,
     nth_error pages k = Some page ->
     match items_of_page items k with
     | [] => nth_error (fst r) k = Some page
     | items_for_page =>
         exists p,
           tag_page lower decode creates k page items_for_page = Ok p /\
           nth_error (fst r) k = Some (fst p) /\
           (forall sect, snd p = Some sect -> In sect (snd r))
     end) /\
  (forall sect,
     In sect (snd r) ->
     exists k page p,
       nth_error pages k = Some page /\
       items_of_page items k <> [] /\
       tag_page lower decode creates k page (items_of_page items k) = Ok p /\
       snd p = Some sect).
Proof.
  intros H. exact (tag_pages_nth lower decode creates items pages 0 r H).
Qed.

Lemma apply_tagging_pages_witness :
  List.length
    (fst (value_of ([], []) (apply_tagging latin1_lower latin1_decode always_created
                               sample_pages sample_page_items))) = 3 /\
  nth_error
    (fst (value_of ([], []) (apply_tagging latin1_lower latin1_decode always_created
                               sample_pages sample_page_items))) 1
  = Some (page_of "BT (Skipped) Tj ET").
Proof.
  destruct (apply_tagging_pages latin1_lower latin1_decode always_created sample_pages sample_page_items
              (value_of ([], []) (apply_tagging latin1_lower latin1_decode always_created
                                    sample_pages sample_page_items)))
    as (Hlen & Hpages & _).
  - vm_compute. reflexivity.
  - split; [exact Hlen|].
    exact (Hpages 1 (page_of "BT (Skipped) Tj ET") eq_refl).
Defined.

Example apply_tagging_example :
  map (fun e => match e with Node s (Some t) _ => Some t | _ => None end)
      (snd (value_of ([], []) (apply_tagging latin1_lower latin1_decode always_created
                                 sample_pages sample_page_items)))
  = [Some (lit "Page-1")]
  /\ map StructParents
       (fst (value_of ([], []) (apply_tagging latin1_lower latin1_decode always_created
                                  sample_pages sample_page_items)))
     = [Some 0; None; Some 2].
Proof. vm_compute. auto. Qed.

Section DocumentProperties.

Variable lower : str -> str.
Hypothesis lower_has_word : forall s, has_word (lower s) = has_word s.

(** X17.  With the Latin-1 codec of the source, [apply_tagging] raises
    on no document and no item list, whichever structure elements
    pikepdf refuses to make: no division by zero in the matcher, no index
    out of range in the rewriter, no encoding error when the new stream
    is written.  Items the analysis never makes (a table without rows, a
    text item without text) are accepted too. *)
Theorem apply_tagging_total creates pages items :
  exists r,
    apply_tagging lower latin1_decode creates pages items = Ok r /\
    List.length (fst r) = List.length pages.
Proof.
  exact (tag_pages_ok lower lower_has_word creates items pages 0).
Qed.

End DocumentProperties.

Lemma apply_tagging_total_witness :
  exists r,
    apply_tagging latin1_lower latin1_decode encodable_title sample_pages
      (table_item_of 1 [] :: surrogate_item 1 :: sample_page_items) = Ok r /\
    List.length (fst r) = List.length sample_pages.
Proof.
  exact (apply_tagging_total latin1_lower latin1_lower_has_word encodable_title sample_pages
           (table_item_of 1 [] :: surrogate_item 1 :: sample_page_items)).
Defined.
